(** * Clustering visualisation: the clustering engine behind [App.tsx]

    [src/App.tsx] holds one React component.  Its algorithmic part is the
    callback [runClustering], which hands the points to one of two external
    libraries ([ml-kmeans], [density-clustering]) and attaches the labels they
    return to the points, and the effect that stores the outcome in the
    component state.  Both are embedded here with explicit state passing: the
    component state is a record, [setError] and [setClusteredData] are the
    new values of the fields they set.

    The two libraries are not part of the repository.  [runClustering] is
    therefore embedded over an arbitrary library (section variables), and the
    algorithms the specification prescribes for them are modelled separately,
    from the specification, in [KMeansClusterer] and [DbscanClusterer]. *)

From Stdlib Require Import ZArith QArith String List Lia Lqa Bool.
From stdpp Require Import base list strings.

Local Open Scope Z_scope.

(** ** JavaScript array helpers used by [runClustering] *)

Module JS.

(** [arr.includes(v)] on an array of numbers. *)
Definition includes (arr : list Z) (v : Z) : bool :=
  existsb (Z.eqb v) arr.

(** [arr.find(p)]: the first element satisfying [p]; [None] is
    [undefined]. *)
Fixpoint find {A : Type} (p : A -> bool) (arr : list A) : option A :=
  match arr with
  | [] => None
  | a :: rest => if p a then Some a else find p rest
  end.

(** [arr.findIndex(p)]: the index of the first element satisfying [p],
    [-1] when there is none. *)
Fixpoint findIndex_from {A : Type} (p : A -> bool) (arr : list A) (i : Z) : Z :=
  match arr with
  | [] => -1
  | a :: rest => if p a then i else findIndex_from p rest (i + 1)
  end.

Definition findIndex {A : Type} (p : A -> bool) (arr : list A) : Z :=
  findIndex_from p arr 0.

End JS.

(** ** The component state and [runClustering] *)

(** [interface DataPoint { x: number; y: number; cluster?: number }].
    Coordinates are finite numbers, taken as rationals; [runClustering] only
    copies them.  An absent [cluster] and a [cluster] holding [undefined] are
    both [None]: the component reads the field only through
    [d.cluster !== undefined]. *)
Record DataPoint : Type := mkDataPoint {
  x : Q;
  y : Q;
  cluster : option Z
}.

(** The object [new KMeans(points, k)] evaluates to; only its [clusters]
    array is read. *)
Module ml_kmeans.
Record Result : Type := mkResult { clusters : list Z }.
End ml_kmeans.

(** The [useState] cells of [App].  [clusters] and [minPoints] are set from
    [parseInt] and are integers ([NaN], from an emptied input field, is left
    out); [error] is [string | null]. *)
Record AppState : Type := mkAppState {
  rawData : list DataPoint;
  clusteredData : list DataPoint;
  clusters : Z;
  algorithm : string;
  epsilon : Q;
  minPoints : Z;
  error : option string
}.

Section App.

(** What a library call throws, and its [message]. *)
Context {exn : Type} (message : exn -> string).

(** [ml-kmeans] draws its initial centroids at random; [entropy] is the
    random state the call sees, which the component does not control. *)
Context {entropy : Type}.

(** [new KMeans(points, k)]: throws or returns a result. *)
Variable KMeans : entropy -> list (Q * Q) -> Z -> exn + ml_kmeans.Result.

(** [new DBSCAN().run(points, epsilon, minPoints)] on the fresh instance
    that line 40 creates for every run: throws or returns the clusters,
    each an array of point indices. *)
Variable DBSCAN_run : list (Q * Q) -> Q -> Z -> exn + list (list Z).

(** [data.map(d => [d.x, d.y])] *)
Definition coordinates (data : list DataPoint) : list (Q * Q) :=
  map (fun d => (x d, y d)) data.

(** [{ ...d, cluster: c }] *)
Definition with_cluster (d : DataPoint) (c : option Z) : DataPoint :=
  {| x := x d; y := y d; cluster := c |}.

(** Line 45:
    [clusters.find(c => c.includes(i)) ? clusters.findIndex(c => c.includes(i)) : -1].
    [find] yields an array (truthy, even when empty) or [undefined]. *)
Definition dbscan_label (cls : list (list Z)) (i : nat) : Z :=
  match JS.find (fun c => JS.includes c (Z.of_nat i)) cls with
  | Some _ => JS.findIndex (fun c => JS.includes c (Z.of_nat i)) cls
  | None => -1
  end.

Definition error_text (err : exn) : string :=
  ("Error running clustering algorithm: " ++ message err)%string.

(** [runClustering(data, clusterCount)], closed over [algorithm],
    [epsilon] and [minPoints].  The result is the returned array together
    with the [error] cell after the call: [setError] is only reached in
    the [catch] branch. *)
Definition runClustering (rnd : entropy) (st : AppState)
    (data : list DataPoint) (clusterCount : Z)
  : list DataPoint * option string :=
  if String.eqb (algorithm st) "kmeans" then
    match KMeans rnd (coordinates data) clusterCount with
    | inr result =>
        (imap (fun i d => with_cluster d (ml_kmeans.clusters result !! i)) data,
         error st)
    | inl err => (data, Some (error_text err))
    end
  else if String.eqb (algorithm st) "dbscan" then
    match DBSCAN_run (coordinates data) (epsilon st) (minPoints st) with
    | inr cls =>
        (imap (fun i d => with_cluster d (Some (dbscan_label cls i))) data,
         error st)
    | inl err => (data, Some (error_text err))
    end
  else (data, error st).

(** The effect of lines 59-64: when there are points, run the clustering
    on [rawData] and store what it returns in [clusteredData]. *)
Definition clusteringEffect (rnd : entropy) (st : AppState) : AppState :=
  if (0 <? length (rawData st))%nat then
    let r := runClustering rnd st (rawData st) (clusters st) in
    {| rawData := rawData st;
       clusteredData := fst r;
       clusters := clusters st;
       algorithm := algorithm st;
       epsilon := epsilon st;
       minPoints := minPoints st;
       error := snd r |}
  else st.

End App.

(** ** The clustering engine, from the specification

    The algorithms themselves are the libraries [ml-kmeans] and
    [density-clustering], which are not part of the repository.  What
    follows stands for them and is written from sections 3, 4 and 7 of the
    specification. *)

(** Modelled from the spec: the error taxonomy of section 7, for what the
    absent libraries throw. *)
Inductive ClusteringError : Type :=
| InvalidParameter
| EmptyInput.

(** Modelled from the spec: the [message] of a failure of the absent
    libraries, taken to be the name of its kind. *)
Definition error_name (e : ClusteringError) : string :=
  match e with
  | InvalidParameter => "InvalidParameter"
  | EmptyInput => "EmptyInput"
  end.

(** Modelled from the spec: [ClusterAssignment] of section 3, the label the
    absent libraries give a point: a cluster index or the [Noise] marker. *)
Inductive ClusterAssignment : Type :=
| InCluster (c : nat)
| Noise.

(** Modelled from the spec: the distance of the absent libraries,
    Euclidean, here squared.  Distances are only ever compared, and the
    square root is monotone, so the comparisons are made on the squares. *)
Definition dist2 (p q : Q * Q) : Q :=
  ((fst p - fst q) * (fst p - fst q) + (snd p - snd q) * (snd p - snd q))%Q.

(** *** DBSCAN, section 4.2 *)

Module DbscanClusterer.

(** Modelled from the spec: the marks [density-clustering] (absent) keeps
    during a run.  Step 1 makes every point [Unvisited]; step 2b marks
    [NoiseMark]; step 2c assigns a cluster. *)
Inductive Mark : Type :=
| Unvisited
| NoiseMark
| Assigned (c : nat).

Definition is_assigned (m : Mark) : bool :=
  match m with Assigned _ => true | _ => false end.

(** Modelled from the spec: the neighbourhood query of
    [density-clustering], which is not part of the repository.  Step 2a:
    all points, the point itself included, within Euclidean distance
    [eps], as indices in input order. *)
Definition neighbourhood (pts : list (Q * Q)) (eps : Q) (p : Q * Q) : list nat :=
  List.filter (fun j => match pts !! j with
                        | Some q => Qle_bool (dist2 p q) (eps * eps)
                        | None => false
                        end)
              (seq 0 (length pts)).

(** Modelled from the spec: the core-point test of [density-clustering]
    (absent).  Glossary: a core point has at least [minPts] points in its
    neighbourhood. *)
Definition is_core (pts : list (Q * Q)) (eps : Q) (minPts : Z) (i : nat) : bool :=
  match pts !! i with
  | Some p => negb (Z.of_nat (length (neighbourhood pts eps p)) <? minPts)
  | None => false
  end.

(** Point [j] is not assigned to a cluster (it is unvisited or noise). *)
Definition unassigned (marks : list Mark) (j : nat) : bool :=
  match marks !! j with
  | Some m => negb (is_assigned m)
  | None => false
  end.

(** The number of points not assigned to a cluster. *)
Definition free (marks : list Mark) : nat :=
  length (List.filter (fun m => negb (is_assigned m)) marks).

(** The points [js] join cluster [c]. *)
Definition assign_all (c : nat) (js : list nat) (marks : list Mark) : list Mark :=
  foldl (fun ms j => <[j := Assigned c]> ms) marks js.

Section Run.

Variables (pts : list (Q * Q)) (eps : Q) (minPts : Z).

(** Modelled from the spec: the cluster expansion of [density-clustering],
    which is not part of the repository.  Step 2c: the points newly added
    to cluster [c] wait in [queue] (breadth-first); for each one that is a
    core point, the members of its neighbourhood not yet assigned to a
    cluster are added to [c] and queued; a border point is not expanded.
    The point that starts the cluster is the first in the queue, so its
    neighbourhood is treated like that of every other core point: a member
    that already belongs to a cluster stays there (first discovery,
    section 9).  Every round takes a point off the queue and every point
    is added to a cluster at most once, so [fuel] rounds with
    [fuel >= length queue + free marks] empty the queue ([expand_fuel]
    below). *)
Fixpoint expand (fuel : nat) (c : nat) (queue : list nat) (marks : list Mark)
  : list Mark :=
  match fuel with
  | O => marks
  | S fuel' =>
      match queue with
      | [] => marks
      | q :: rest =>
          if is_core pts eps minPts q then
            match pts !! q with
            | Some p =>
                let fresh := List.filter (unassigned marks) (neighbourhood pts eps p) in
                expand fuel' c (rest ++ fresh) (assign_all c fresh marks)
            | None => expand fuel' c rest marks
            end
          else expand fuel' c rest marks
      end
  end.

(** Modelled from the spec: the main loop of [density-clustering], which is
    not part of the repository.  Step 2: the points are visited in input
    order; a point that is no longer [Unvisited] is skipped; one with
    fewer than [minPts] neighbours is marked noise; a core point starts
    cluster number [next], which is expanded for at most [fuel] rounds. *)
Fixpoint scan (fuel : nat) (todo : list nat) (next : nat) (marks : list Mark)
  : list Mark * nat :=
  match todo with
  | [] => (marks, next)
  | p :: rest =>
      match marks !! p with
      | Some Unvisited =>
          if is_core pts eps minPts p then
            scan fuel rest (S next)
                 (expand fuel next [p] (<[p := Assigned next]> marks))
          else scan fuel rest next (<[p := NoiseMark]> marks)
      | _ => scan fuel rest next marks
      end
  end.

(** Modelled from the spec: the terminal labelling of [density-clustering]
    (absent).  Step 3: whatever was never absorbed into a cluster is
    noise. *)
Definition final_label (m : Mark) : ClusterAssignment :=
  match m with
  | Assigned c => InCluster c
  | _ => Noise
  end.

(** Modelled from the spec: the cluster expansion of [density-clustering]
    (absent) as a relation, step 2c without a bound on the rounds:
    [Expand c queue marks marks'] when expanding cluster [c] from the
    points in [queue] turns [marks] into [marks']. *)
Inductive Expand (c : nat) : list nat -> list Mark -> list Mark -> Prop :=
| Expand_done (marks : list Mark) :
    Expand c [] marks marks
| Expand_core (q : nat) (p : Q * Q) (rest : list nat) (marks marks' : list Mark) :
    is_core pts eps minPts q = true ->
    pts !! q = Some p ->
    Expand c (rest ++ List.filter (unassigned marks) (neighbourhood pts eps p))
           (assign_all c (List.filter (unassigned marks) (neighbourhood pts eps p))
                       marks)
           marks' ->
    Expand c (q :: rest) marks marks'
| Expand_border (q : nat) (rest : list nat) (marks marks' : list Mark) :
    is_core pts eps minPts q = false ->
    Expand c rest marks marks' ->
    Expand c (q :: rest) marks marks'.

(** Modelled from the spec: the main loop of [density-clustering] (absent)
    as a relation, step 2: [Scan todo next marks (marks', n)] when visiting
    the points [todo] in order, with [next] clusters so far, ends with the
    marks [marks'] and [n] clusters. *)
Inductive Scan : list nat -> nat -> list Mark -> list Mark * nat -> Prop :=
| Scan_done (next : nat) (marks : list Mark) :
    Scan [] next marks (marks, next)
| Scan_skip (p : nat) (rest : list nat) (next : nat) (marks : list Mark)
    (res : list Mark * nat) :
    marks !! p <> Some Unvisited ->
    Scan rest next marks res ->
    Scan (p :: rest) next marks res
| Scan_noise (p : nat) (rest : list nat) (next : nat) (marks : list Mark)
    (res : list Mark * nat) :
    marks !! p = Some Unvisited ->
    is_core pts eps minPts p = false ->
    Scan rest next (<[p := NoiseMark]> marks) res ->
    Scan (p :: rest) next marks res
| Scan_core (p : nat) (rest : list nat) (next : nat) (marks marks' : list Mark)
    (res : list Mark * nat) :
    marks !! p = Some Unvisited ->
    is_core pts eps minPts p = true ->
    Expand next [p] (<[p := Assigned next]> marks) marks' ->
    Scan rest (S next) marks' res ->
    Scan (p :: rest) next marks res.

(** Steps 1 and 2 with [fuel] expansion rounds per cluster: the final marks
    and the number of clusters. *)
Definition run_marks_fuel (fuel : nat) : list Mark * nat :=
  scan fuel (seq 0 (length pts)) 0%nat (replicate (length pts) Unvisited).

(** One round per point is enough ([run_marks_fuel_enough] below). *)
Definition run_marks : list Mark * nat := run_marks_fuel (length pts).

End Run.

(** Modelled from the spec: [cluster(points, epsilon, minPoints)] of
    section 4.2, standing for [density-clustering], which is not part of
    the repository.  Fails with [InvalidParameter] if [epsilon <= 0] or
    [minPoints < 1]; otherwise one assignment per point. *)
Definition cluster (pts : list (Q * Q)) (eps : Q) (minPts : Z)
  : ClusteringError + list ClusterAssignment :=
  if Qle_bool eps 0 || (minPts <? 1) then inl InvalidParameter
  else inr (map final_label (fst (run_marks pts eps minPts))).

Definition numClusters (pts : list (Q * Q)) (eps : Q) (minPts : Z) : nat :=
  snd (run_marks pts eps minPts).

(** The members of cluster [c], as indices in input order. *)
Definition members (labels : list ClusterAssignment) (c : nat) : list Z :=
  map Z.of_nat
      (List.filter (fun i => match labels !! i with
                             | Some (InCluster c') => Nat.eqb c c'
                             | _ => false
                             end)
                   (seq 0 (length labels))).

(** Modelled from the spec: [dbscan.run] of [density-clustering] (absent),
    the outcome of [cluster] in the shape line 42 of [App.tsx] reads: the
    array of clusters, each the array of its members. *)
Definition run (pts : list (Q * Q)) (eps : Q) (minPts : Z)
  : ClusteringError + list (list Z) :=
  match cluster pts eps minPts with
  | inl e => inl e
  | inr labels => inr (map (members labels) (seq 0 (numClusters pts eps minPts)))
  end.

(** Modelled from the spec: the contract of section 4.2 as a relation
    between an input and what a run of DBSCAN on it may answer, for a
    [density-clustering] (absent) of which nothing else is known: the
    failure of the contract, or the labels a run of steps 1 to 3 ends
    with. *)
Inductive Outcome (pts : list (Q * Q)) (eps : Q) (minPts : Z)
  : ClusteringError + list ClusterAssignment -> Prop :=
| Outcome_invalid :
    (eps <= 0)%Q \/ minPts < 1 ->
    Outcome pts eps minPts (inl InvalidParameter)
| Outcome_labels (marks : list Mark) (n : nat) :
    (0 < eps)%Q -> 1 <= minPts ->
    Scan pts eps minPts (seq 0 (length pts)) 0%nat
         (replicate (length pts) Unvisited) (marks, n) ->
    Outcome pts eps minPts (inr (map final_label marks)).

(** The array of clusters line 42 of [App.tsx] reads stands for the labels:
    cluster number [c] holds index [i] exactly when point [i] is labelled
    [c].  The order of the members of a cluster is left open. *)
Definition represents (cls : list (list Z)) (labels : list ClusterAssignment)
  : Prop :=
  forall i c : nat,
    (exists m, cls !! c = Some m /\ Z.of_nat i ∈ m)
    <-> labels !! i = Some (InCluster c).

(** What a call [dbscan.run(points, epsilon, minPoints)] may answer. *)
Definition answers (pts : list (Q * Q)) (eps : Q) (minPts : Z)
    (out : ClusteringError + list (list Z)) : Prop :=
  match out with
  | inl e => Outcome pts eps minPts (inl e)
  | inr cls =>
      exists labels, Outcome pts eps minPts (inr labels) /\ represents cls labels
  end.

(** [run] with the members of every cluster in the opposite order. *)
Definition run_reversed (pts : list (Q * Q)) (eps : Q) (minPts : Z)
  : ClusteringError + list (list Z) :=
  match run pts eps minPts with
  | inl e => inl e
  | inr cls => inr (map (@reverse Z) cls)
  end.

End DbscanClusterer.

(** *** K-means, section 4.1 *)

Module KMeansClusterer.

Definition Qlt_bool (a b : Q) : bool := negb (Qle_bool b a).

(** Modelled from the spec: the assignment step of [ml-kmeans] (absent).
    Step 2a: the index of the centroid at minimum distance; a later
    centroid replaces the best one only when strictly closer, so ties go to
    the lowest index. *)
Fixpoint nearest_from (p : Q * Q) (cs : list (Q * Q)) (i best : nat) (bestd : Q)
  : nat :=
  match cs with
  | [] => best
  | c :: rest =>
      if Qlt_bool (dist2 p c) bestd
      then nearest_from p rest (S i) i (dist2 p c)
      else nearest_from p rest (S i) best bestd
  end.

Definition nearest (cs : list (Q * Q)) (p : Q * Q) : nat :=
  match cs with
  | [] => O
  | c :: rest => nearest_from p rest 1%nat O (dist2 p c)
  end.

Definition assign (pts cs : list (Q * Q)) : list nat :=
  map (nearest cs) pts.

Definition Qsum (l : list Q) : Q := foldr Qplus 0%Q l.

(** Modelled from the spec: the centroid of section 3 ([ml-kmeans] is
    absent), the coordinate-wise mean of a non-empty list of points. *)
Definition mean (ps : list (Q * Q)) : Q * Q :=
  let n := inject_Z (Z.of_nat (length ps)) in
  ((Qsum (map fst ps) / n)%Q, (Qsum (map snd ps) / n)%Q).

(** The points labelled [c]. *)
Fixpoint assigned_to (c : nat) (pts : list (Q * Q)) (labels : list nat)
  : list (Q * Q) :=
  match pts, labels with
  | p :: pts', l :: labels' =>
      if Nat.eqb l c then p :: assigned_to c pts' labels'
      else assigned_to c pts' labels'
  | _, _ => []
  end.

(** Modelled from the spec: the update step of [ml-kmeans] (absent).  Step
    2b: every centroid becomes the mean of its points; one without points
    keeps its position. *)
Definition update (pts : list (Q * Q)) (labels : list nat) (cs : list (Q * Q))
  : list (Q * Q) :=
  imap (fun c prev => match assigned_to c pts labels with
                      | [] => prev
                      | ps => mean ps
                      end) cs.

(** Modelled from the spec: the convergence tests of [ml-kmeans] (absent).
    Step 2c, second test: the largest centroid displacement is below
    [1e-6], that is, every squared displacement is below [1e-12]. *)
Fixpoint settled (cs cs' : list (Q * Q)) : bool :=
  match cs, cs' with
  | c :: r, c' :: r' => Qlt_bool (dist2 c c') (1 # 1000000000000) && settled r r'
  | _, _ => true
  end.

(** Step 2c, first test: no point changed its cluster since the round
    before. *)
Definition same_labels (prev : option (list nat)) (labels : list nat) : bool :=
  match prev with
  | Some l => bool_decide (l = labels)
  | None => false
  end.

(** Modelled from the spec: the iteration of [ml-kmeans], which is not part
    of the repository.  Step 2: at most [rounds] rounds of assignment,
    update and convergence test; [prev] holds the assignments of the round
    before, none in the first round. *)
Fixpoint lloyd (pts : list (Q * Q)) (rounds : nat) (prev : option (list nat))
    (cs : list (Q * Q)) : list nat :=
  match rounds with
  | O => match prev with Some l => l | None => assign pts cs end
  | S rounds' =>
      let labels := assign pts cs in
      let cs' := update pts labels cs in
      if same_labels prev labels || settled cs cs' then labels
      else lloyd pts rounds' (Some labels) cs'
  end.

(** Modelled from the spec: the iteration bound of [ml-kmeans] (absent),
    100 by default. *)
Definition maxIterations : nat := 100.

Section Seeded.

(** The seeded random source of step 1: [rand seed j] is its [j]-th
    draw. *)
Context {Seed : Type} (rand : Seed -> nat -> nat).

(** Modelled from the spec: the centroid initialisation of [ml-kmeans],
    which is not part of the repository.  Step 1: [k] points drawn from the
    input without replacement; each draw picks a position of the remaining
    pool. *)
Fixpoint draw (seed : Seed) (j k : nat) (pool : list (Q * Q)) : list (Q * Q) :=
  match k with
  | O => []
  | S k' =>
      let i := (rand seed j mod length pool)%nat in
      match pool !! i with
      | Some c => c :: draw seed (S j) k' (delete i pool)
      | None => []
      end
  end.

(** Modelled from the spec: [cluster(points, k)] of section 4.1, standing
    for [ml-kmeans], which is not part of the repository.  Fails with
    [EmptyInput] if [points] is empty, with [InvalidParameter] if [k < 1]
    or [k > points.length].  The specification does not order the two
    tests; on an empty input both apply, and [EmptyInput] is reported (the
    other order would make [EmptyInput] unreachable). *)
Definition cluster (seed : Seed) (pts : list (Q * Q)) (k : Z)
  : ClusteringError + list ClusterAssignment :=
  match pts with
  | [] => inl EmptyInput
  | _ =>
      if (k <? 1) || (Z.of_nat (length pts) <? k) then inl InvalidParameter
      else inr (map InCluster
                    (lloyd pts maxIterations None (draw seed O (Z.to_nat k) pts)))
  end.

(** A label as the number [App.tsx] stores in [cluster]. *)
Definition label_number (a : ClusterAssignment) : Z :=
  match a with
  | InCluster c => Z.of_nat c
  | Noise => -1
  end.

(** Modelled from the spec: [new KMeans(points, k)] of [ml-kmeans]
    (absent), the outcome of [cluster] in the shape lines 34-37 of
    [App.tsx] read: an object whose [clusters] array holds the label of
    every point. *)
Definition KMeans (seed : Seed) (pts : list (Q * Q)) (k : Z)
  : ClusteringError + ml_kmeans.Result :=
  match cluster seed pts k with
  | inl e => inl e
  | inr labels => inr (ml_kmeans.mkResult (map label_number labels))
  end.

End Seeded.

End KMeansClusterer.

(** ** The component running on the specified algorithms *)

Section Specified.

Context {Seed : Type} (rand : Seed -> nat -> nat).

(** [runClustering] and the effect, with the library calls answered by the
    algorithms of the specification. *)
Definition specRunClustering : Seed -> AppState -> list DataPoint -> Z
    -> list DataPoint * option string :=
  runClustering error_name (KMeansClusterer.KMeans rand) DbscanClusterer.run.

Definition specClusteringEffect : Seed -> AppState -> AppState :=
  clusteringEffect error_name (KMeansClusterer.KMeans rand) DbscanClusterer.run.

End Specified.

(** ** Concrete inputs *)

(** The four points of the specification's scenarios (section 8). *)
Definition scenario : list (Q * Q) :=
  [(0, 0); (0, 1); (10, 10); (10, 11)]%Q.

Definition scenario_data : list DataPoint :=
  map (fun p => mkDataPoint (fst p) (snd p) None) scenario.

Definition scenario_clustered : list DataPoint :=
  [ mkDataPoint 0 0 (Some 0); mkDataPoint 0 1 (Some 0);
    mkDataPoint 10 10 (Some 1); mkDataPoint 10 11 (Some 1) ].

(** A random source for the examples: draw [j] of seed [s] is [s + j]. *)
Definition counting_source (s j : nat) : nat := (s + j)%nat.

(** The component showing the scenario with DBSCAN, [epsilon = 2] and
    [minPoints = 2]. *)
Definition dbscan_state : AppState :=
  {| rawData := scenario_data; clusteredData := [];
     clusters := 3; algorithm := "dbscan";
     epsilon := 2; minPoints := 2; error := None |}.

(** The same component with a radius of zero. *)
Definition zero_radius_state : AppState :=
  {| rawData := scenario_data; clusteredData := scenario_clustered;
     clusters := 3; algorithm := "dbscan";
     epsilon := 0; minPoints := 2; error := None |}.

(** The component after a K-means run with [k = 2] on the scenario, the
    number of clusters then raised to 5, above the number of points. *)
Definition stale_state : AppState :=
  {| rawData := scenario_data; clusteredData := scenario_clustered;
     clusters := 5; algorithm := "kmeans";
     epsilon := 50; minPoints := 3; error := None |}.

(** A selector that names neither algorithm. *)
Definition unknown_state : AppState :=
  {| rawData := scenario_data; clusteredData := [];
     clusters := 3; algorithm := "hierarchical";
     epsilon := 50; minPoints := 3; error := None |}.

(** ** The rest of the component: data generation, handlers, drawing *)

Section Generate.

(** [Math.random()]: [random n] is what the [n]-th call returns. *)
Variable random : nat -> Q.

(** The array built by [generateRandomData] (lines 24-27) when [calls]
    calls of [Math.random] came before: [Array.from({ length: 100 }, ...)]
    runs the callback for the indices 0 to 99 in order, and each run draws
    [x], then [y]. *)
Definition generateRandomData (calls : nat) : list DataPoint :=
  map (fun i => {| x := (random (calls + 2 * i) * 800)%Q;
                   y := (random (calls + 2 * i + 1) * 600)%Q;
                   cluster := None |})
      (seq 0 100).

(** [handleGenerateData] (lines 109-112): [setError(null)], then
    [generateRandomData()], which ends in [setRawData(newData)]. *)
Definition handleGenerateData (calls : nat) (st : AppState) : AppState :=
  {| rawData := generateRandomData calls;
     clusteredData := clusteredData st;
     clusters := clusters st;
     algorithm := algorithm st;
     epsilon := epsilon st;
     minPoints := minPoints st;
     error := None |}.

End Generate.

(** [handleClusterChange] (lines 114-117), for a field value that
    [parseInt] turns into the integer [parsed].  The clustering effect has
    [clusters] among its dependencies and runs again when the value is a
    new one. *)
Definition handleClusterChange (parsed : Z) (st : AppState) : AppState :=
  {| rawData := rawData st;
     clusteredData := clusteredData st;
     clusters := parsed;
     algorithm := algorithm st;
     epsilon := epsilon st;
     minPoints := minPoints st;
     error := error st |}.

(** The error banner of lines 209-213, [{error && (<div>...{error}</div>)}]:
    shown when [error] is truthy, that is, neither [null] nor the empty
    string. *)
Definition errorBanner (st : AppState) : option string :=
  match error st with
  | Some s => if String.eqb s "" then None else Some s
  | None => None
  end.

(** The functions of [d3] the drawing effect calls, as [d3] documents
    them. *)
Module D3.

(** [d3.schemeCategory10] *)
Definition schemeCategory10 : list string :=
  [ "#1f77b4"; "#ff7f0e"; "#2ca02c"; "#d62728"; "#9467bd";
    "#8c564b"; "#e377c2"; "#7f7f7f"; "#bcbd22"; "#17becf" ]%string.

(** Position of a key in the domain of an ordinal scale. *)
Fixpoint index_of (d : Z) (domain : list Z) : option nat :=
  match domain with
  | [] => None
  | d' :: rest => if Z.eqb d d' then Some O else S <$> index_of d rest
  end.

(** A call [scale(d)] of [d3.scaleOrdinal(range)] with an implicit domain:
    a key not seen before is appended to the domain; the result is
    [range[i % range.length]] for the position [i] of the key.  The keys
    are the strings [c.toString()] of integer labels, which differ exactly
    when the labels do; the label stands for its string. *)
Definition scaleOrdinal (range : list string) (domain : list Z) (d : Z)
  : option string * list Z :=
  match index_of d domain with
  | Some i => (range !! (i mod length range)%nat, domain)
  | None => (range !! (length domain mod length range)%nat, domain ++ [d])
  end.

(** [d3.mean(values, accessor)] on numbers: the sum, accumulated from 0 in
    order, over the count; [undefined] without values.  The sum and the
    quotient are exact here; the doubles of the program round after every
    addition and after the division. *)
Definition mean {A : Type} (values : list A) (accessor : A -> Q) : option Q :=
  match values with
  | [] => None
  | _ => Some (foldl Qplus 0%Q (map accessor values)
               / inject_Z (Z.of_nat (length values)))%Q
  end.

(** The grouping step of [d3.rollup]: a value joins the group of its key,
    or opens a new group after the existing ones. *)
Fixpoint add_to_group {K V : Type} (eqb : K -> K -> bool) (k : K) (v : V)
    (groups : list (K * list V)) : list (K * list V) :=
  match groups with
  | [] => [(k, [v])]
  | (k', vs) :: rest =>
      if eqb k k' then (k', vs ++ [v]) :: rest
      else (k', vs) :: add_to_group eqb k v rest
  end.

Definition group {K V : Type} (eqb : K -> K -> bool) (values : list V)
    (key : V -> K) : list (K * list V) :=
  foldl (fun groups v => add_to_group eqb (key v) v groups) [] values.

(** [d3.rollup(values, reduce, key)]: the map from each key to the
    reduction of its group, in the order the keys first appear. *)
Definition rollup {K V R : Type} (eqb : K -> K -> bool) (values : list V)
    (reduce : list V -> R) (key : V -> K) : list (K * R) :=
  map (fun g => (fst g, reduce (snd g))) (group eqb values key).

End D3.

(** What holds of the groups once the values [l] have been added: the keys
    are distinct, every group holds, in order, the values of [l] with its
    key, and every value of [l] has its group. *)
Definition grouped {K V : Type} (eqb : K -> K -> bool) (key : V -> K)
    (groups : list (K * list V)) (l : list V) : Prop :=
  NoDup (map fst groups) /\
  (forall k vs, (k, vs) ∈ groups ->
     vs = List.filter (fun v => eqb (key v) k) l /\ vs <> []) /\
  (forall v, v ∈ l -> key v ∈ map fst groups).

(** Equality of [cluster] values as map keys: numbers by value, and
    [undefined]. *)
Definition same_key (a b : option Z) : bool :=
  match a, b with
  | Some m, Some n => Z.eqb m n
  | None, None => true
  | _, _ => false
  end.

(** Line 84, the [fill] of the circles of the data points, in order, with
    the colour scale of line 72 threaded through the calls:
    [d.cluster !== undefined && d.cluster !== -1
       ? colorScale(d.cluster.toString()) : '#ccc']. *)
Fixpoint fills (domain : list Z) (data : list DataPoint) : list (option string) :=
  match data with
  | [] => []
  | d :: rest =>
      match cluster d with
      | Some c =>
          if Z.eqb c (-1) then Some "#ccc"%string :: fills domain rest
          else
            let r := D3.scaleOrdinal D3.schemeCategory10 domain c in
            fst r :: fills (snd r) rest
      | None => Some "#ccc"%string :: fills domain rest
      end
  end.

(** Lines 88-92: the centroid of every group of equal [cluster], as
    [{ x: d3.mean(v, d => d.x), y: d3.mean(v, d => d.y) }]. *)
Definition centroid_of (v : list DataPoint) : option Q * option Q :=
  (D3.mean v x, D3.mean v y).

Definition centroids (data : list DataPoint)
  : list (option Z * (option Q * option Q)) :=
  D3.rollup same_key data centroid_of cluster.

(** What the drawing effect puts into the cleared SVG: a circle of radius 5
    per data point ([cx], [cy], [fill]) and a circle of radius 8 per
    centroid ([cx], [cy]). *)
Record Drawing : Type := mkDrawing {
  datapoints : list (Q * Q * option string);
  centroidMarks : list (option Q * option Q)
}.

(** The drawing effect of lines 66-107 on the mounted SVG element; [None]
    is the early return of line 67, which leaves the SVG as it is. *)
Definition draw (st : AppState) : option Drawing :=
  if (length (clusteredData st) =? 0)%nat then None
  else
    Some {| datapoints :=
              zip (coordinates (clusteredData st)) (fills [] (clusteredData st));
            centroidMarks :=
              if String.eqb (algorithm st) "kmeans"
              then map snd (centroids (clusteredData st))
              else [] |}.

(** A stream for [Math.random] that always answers one half. *)
Definition steady_random (n : nat) : Q := 1 # 2.

(** Twelve points on a line, each in a cluster of its own. *)
Definition twelve_clusters : list DataPoint :=
  map (fun i => mkDataPoint (inject_Z (Z.of_nat i)) 0 (Some (Z.of_nat i)))
      (seq 0 12).

(** * Properties *)

(** ** The array helpers *)

Lemma find_None {A : Type} (p : A -> bool) (arr : list A) :
  JS.find p arr = None <-> forall a, a ∈ arr -> p a = false.
Proof.
  induction arr as [|a rest IH]; simpl.
  - split; [intros _ a Ha; inversion Ha | reflexivity].
  - destruct (p a) eqn:Hpa.
    + split; [discriminate|]. intros H.
      rewrite (H a) in Hpa by (left). discriminate.
    + rewrite IH. split.
      * intros H b Hb. apply elem_of_cons in Hb as [->|Hb]; auto.
      * intros H b Hb. apply H. now right.
Qed.

(** When [find] succeeds, [findIndex] is the position of the first element
    satisfying the predicate. *)
Lemma findIndex_from_first {A : Type} (p : A -> bool) (arr : list A) (i : Z) (a : A) :
  JS.find p arr = Some a ->
  exists n : nat,
    JS.findIndex_from p arr i = i + Z.of_nat n /\
    arr !! n = Some a /\ p a = true /\
    forall m b, (m < n)%nat -> arr !! m = Some b -> p b = false.
Proof.
  revert i. induction arr as [|b rest IH]; intros i; simpl; [discriminate|].
  destruct (p b) eqn:Hpb.
  - intros [= ->]. exists O. repeat split; auto; lia.
  - intros Hf. destruct (IH (i + 1) Hf) as (n & Hn & Hl & Hp & Hfirst).
    exists (S n). repeat split; auto; try lia.
    intros [|m] c Hm; simpl.
    + intros [= <-]. exact Hpb.
    + apply Hfirst. lia.
Qed.

Lemma includes_spec (arr : list Z) (v : Z) :
  JS.includes arr v = true <-> v ∈ arr.
Proof.
  unfold JS.includes. rewrite existsb_exists. split.
  - intros (w & Hin & Heq). apply Z.eqb_eq in Heq. subst w.
    now apply list_elem_of_In.
  - intros Hin. exists v. split; [now apply list_elem_of_In | apply Z.eqb_refl].
Qed.

(** ** [runClustering] over an arbitrary library *)

Section AppFacts.

Context {exn : Type} (message : exn -> string).
Context {entropy : Type}.
Variable KMeans : entropy -> list (Q * Q) -> Z -> exn + ml_kmeans.Result.
Variable DBSCAN_run : list (Q * Q) -> Q -> Z -> exn + list (list Z).

Local Abbreviation run := (runClustering message KMeans DBSCAN_run).
Local Abbreviation effect := (clusteringEffect message KMeans DBSCAN_run).

Lemma with_cluster_same (d : DataPoint) : with_cluster d (cluster d) = d.
Proof. now destruct d. Qed.

Lemma run_kmeans_ok rnd st data k r :
  algorithm st = "kmeans" ->
  KMeans rnd (coordinates data) k = inr r ->
  run rnd st data k =
    (imap (fun i d => with_cluster d (ml_kmeans.clusters r !! i)) data, error st).
Proof. intros Ha Hr. unfold runClustering. now rewrite Ha, Hr. Qed.

Lemma run_kmeans_throws rnd st data k err :
  algorithm st = "kmeans" ->
  KMeans rnd (coordinates data) k = inl err ->
  run rnd st data k = (data, Some (error_text message err)).
Proof. intros Ha Hr. unfold runClustering. now rewrite Ha, Hr. Qed.

Lemma run_dbscan_ok rnd st data k cls :
  algorithm st = "dbscan" ->
  DBSCAN_run (coordinates data) (epsilon st) (minPoints st) = inr cls ->
  run rnd st data k =
    (imap (fun i d => with_cluster d (Some (dbscan_label cls i))) data, error st).
Proof. intros Ha Hr. unfold runClustering. now rewrite Ha, Hr. Qed.

Lemma run_dbscan_throws rnd st data k err :
  algorithm st = "dbscan" ->
  DBSCAN_run (coordinates data) (epsilon st) (minPoints st) = inl err ->
  run rnd st data k = (data, Some (error_text message err)).
Proof. intros Ha Hr. unfold runClustering. now rewrite Ha, Hr. Qed.

Lemma run_other rnd st data k :
  algorithm st <> "kmeans" -> algorithm st <> "dbscan" ->
  run rnd st data k = (data, error st).
Proof.
  intros Hk Hd. unfold runClustering.
  apply String.eqb_neq in Hk, Hd. now rewrite Hk, Hd.
Qed.

(** Whatever the branch, the element at index [i] of the result is the
    element at index [i] of the input with some [cluster] field. *)
Lemma run_pointwise rnd st data k i d :
  data !! i = Some d ->
  exists lab, fst (run rnd st data k) !! i = Some (with_cluster d lab).
Proof.
  intros Hd. unfold runClustering.
  destruct (String.eqb (algorithm st) "kmeans").
  { destruct (KMeans _ _ _) as [err|r]; simpl.
    - exists (cluster d). now rewrite with_cluster_same.
    - rewrite list_lookup_imap, Hd. simpl. eauto. }
  destruct (String.eqb (algorithm st) "dbscan").
  { destruct (DBSCAN_run _ _ _) as [err|cls]; simpl.
    - exists (cluster d). now rewrite with_cluster_same.
    - rewrite list_lookup_imap, Hd. simpl. eauto. }
  simpl. exists (cluster d). now rewrite with_cluster_same.
Qed.

Lemma run_length rnd st data k :
  length (fst (run rnd st data k)) = length data.
Proof.
  unfold runClustering.
  destruct (String.eqb (algorithm st) "kmeans").
  { destruct (KMeans _ _ _); simpl; [reflexivity | apply length_imap]. }
  destruct (String.eqb (algorithm st) "dbscan").
  { destruct (DBSCAN_run _ _ _); simpl; [reflexivity | apply length_imap]. }
  reflexivity.
Qed.

(** Without points the effect does nothing: [runClustering] is not called
    and no error is set (the guard of line 60). *)
Lemma effect_no_points rnd st : rawData st = [] -> effect rnd st = st.
Proof. intros H. unfold clusteringEffect. now rewrite H. Qed.

(** C1: under either algorithm the array [runClustering] returns has the
    length of the input, and its element at index [i] is the input point at
    index [i] carrying a label; when the library call returns, that label
    is the one the library result gives for index [i]. *)
Theorem runClustering_length_order rnd st data k :
  algorithm st = "kmeans" \/ algorithm st = "dbscan" ->
  length (fst (run rnd st data k)) = length data /\
  (forall i d, data !! i = Some d ->
     exists lab, fst (run rnd st data k) !! i = Some (with_cluster d lab)) /\
  (forall r, algorithm st = "kmeans" ->
     KMeans rnd (coordinates data) k = inr r ->
     forall i d, data !! i = Some d ->
       fst (run rnd st data k) !! i
       = Some (with_cluster d (ml_kmeans.clusters r !! i))) /\
  (forall cls, algorithm st = "dbscan" ->
     DBSCAN_run (coordinates data) (epsilon st) (minPoints st) = inr cls ->
     forall i d, data !! i = Some d ->
       fst (run rnd st data k) !! i
       = Some (with_cluster d (Some (dbscan_label cls i)))).
Proof.
  intros _. split; [apply run_length|].
  split; [intros i d; apply run_pointwise|]. split.
  - intros r Ha Hr i d Hd.
    rewrite (run_kmeans_ok _ _ _ _ _ Ha Hr). simpl.
    now rewrite list_lookup_imap, Hd.
  - intros cls Ha Hr i d Hd.
    rewrite (run_dbscan_ok _ _ _ k _ Ha Hr). simpl.
    now rewrite list_lookup_imap, Hd.
Qed.

(** C9: for an algorithm selector other than ['kmeans'] and ['dbscan'],
    [runClustering] returns the input array as it is and leaves the error
    cell as it was. *)
Theorem runClustering_unknown_algorithm rnd st data k :
  algorithm st <> "kmeans" -> algorithm st <> "dbscan" ->
  run rnd st data k = (data, error st).
Proof. apply run_other. Qed.

(** C10: in every branch of [runClustering], the [x] and [y] of the output
    element at an index are the [x] and [y] of the input element at that
    index (and the output has an element exactly where the input has
    one). *)
Theorem runClustering_coordinates rnd st data k i :
  x <$> fst (run rnd st data k) !! i = x <$> data !! i /\
  y <$> fst (run rnd st data k) !! i = y <$> data !! i.
Proof.
  destruct (data !! i) as [d|] eqn:Hd.
  - destruct (run_pointwise rnd st data k i d Hd) as [lab ->]. now simpl.
  - apply lookup_ge_None in Hd.
    rewrite (proj2 (lookup_ge_None _ i)); [now simpl|].
    now rewrite run_length.
Qed.

(** C4, as amended: a failing library call does not abort [runClustering];
    the message goes to the error cell and the input comes back without the
    labels of the failed run.  The effect then stores that input in
    [clusteredData], in place of what was displayed before. *)
Theorem failed_run_outcome rnd st err :
  rawData st <> [] ->
  (algorithm st = "kmeans" /\
   KMeans rnd (coordinates (rawData st)) (clusters st) = inl err) \/
  (algorithm st = "dbscan" /\
   DBSCAN_run (coordinates (rawData st)) (epsilon st) (minPoints st) = inl err) ->
  run rnd st (rawData st) (clusters st)
  = (rawData st, Some (error_text message err)) /\
  clusteredData (effect rnd st) = rawData st /\
  error (effect rnd st) = Some (error_text message err).
Proof.
  intros Hne Hfail.
  assert (Hrun : run rnd st (rawData st) (clusters st)
                 = (rawData st, Some (error_text message err))).
  { destruct Hfail as [[Ha Hr]|[Ha Hr]].
    - now apply run_kmeans_throws.
    - now apply run_dbscan_throws. }
  split; [exact Hrun|].
  unfold clusteringEffect.
  destruct (rawData st) as [|d rest] eqn:Hraw; [congruence|].
  simpl Nat.ltb. cbv iota. simpl clusteredData. simpl error.
  rewrite <- Hraw in *. rewrite Hrun. now simpl.
Qed.

(** C5: when the DBSCAN call returns its clusters, every output point
    carries exactly one label: either [-1], and then the point is in none
    of the returned clusters, or an index below the number of clusters,
    namely that of the first cluster holding the point. *)
Theorem dbscan_labels rnd st data k cls i d' :
  algorithm st = "dbscan" ->
  DBSCAN_run (coordinates data) (epsilon st) (minPoints st) = inr cls ->
  fst (run rnd st data k) !! i = Some d' ->
  exists l : Z,
    cluster d' = Some l /\
    ((l = -1 /\ forall c, c ∈ cls -> Z.of_nat i ∉ c) \/
     (0 <= l < Z.of_nat (length cls) /\
      exists c, cls !! Z.to_nat l = Some c /\ Z.of_nat i ∈ c /\
        forall m c', (m < Z.to_nat l)%nat -> cls !! m = Some c' ->
                     Z.of_nat i ∉ c')).
Proof.
  intros Ha Hr Hout.
  rewrite (run_dbscan_ok _ _ _ k _ Ha Hr) in Hout. simpl in Hout.
  rewrite list_lookup_imap in Hout.
  destruct (data !! i) as [d|]; [|discriminate].
  simpl in Hout. injection Hout as <-.
  exists (dbscan_label cls i). split; [reflexivity|].
  unfold dbscan_label.
  destruct (JS.find _ cls) as [c|] eqn:Hfind.
  - right.
    destruct (findIndex_from_first _ _ 0 _ Hfind) as (n & Hn & Hl & Hp & Hfirst).
    unfold JS.findIndex. rewrite Hn.
    apply lookup_lt_Some in Hl as Hlt.
    split; [lia|]. exists c.
    replace (Z.to_nat (0 + Z.of_nat n)) with n by lia.
    split; [exact Hl|]. split; [now apply includes_spec|].
    intros m c' Hm Hc' Hin. apply includes_spec in Hin.
    now rewrite (Hfirst m c' Hm Hc') in Hin.
  - left. split; [reflexivity|].
    intros c Hc Hin. apply includes_spec in Hin.
    rewrite find_None in Hfind. now rewrite (Hfind c Hc) in Hin.
Qed.

End AppFacts.

(** ** K-means as specified *)

Module KMeansFacts.
Import KMeansClusterer.

Lemma nearest_from_bound p cs i best bestd :
  (best < i)%nat -> (nearest_from p cs i best bestd < i + length cs)%nat.
Proof.
  revert i best bestd. induction cs as [|c rest IH]; intros i best bestd Hb; simpl.
  - lia.
  - destruct (Qlt_bool _ _).
    + specialize (IH (S i) i (dist2 p c)). lia.
    + specialize (IH (S i) best bestd). lia.
Qed.

Lemma nearest_bound cs p : cs <> [] -> (nearest cs p < length cs)%nat.
Proof.
  destruct cs as [|c rest]; [congruence|]. intros _. simpl.
  pose proof (nearest_from_bound p rest 1 0 (dist2 p c)). lia.
Qed.

Lemma assign_length pts cs : length (assign pts cs) = length pts.
Proof. unfold assign. now rewrite length_map. Qed.

Lemma assign_bound pts cs :
  cs <> [] -> Forall (fun l => (l < length cs)%nat) (assign pts cs).
Proof.
  intros Hcs. unfold assign. apply Forall_map, Forall_forall.
  intros p _. now apply nearest_bound.
Qed.

Lemma update_length pts labels cs : length (update pts labels cs) = length cs.
Proof. unfold update. apply length_imap. Qed.

Lemma nonempty_length {A : Type} (l : list A) : l <> [] <-> (0 < length l)%nat.
Proof. destruct l; simpl; split; intros; try congruence; lia. Qed.

(** Every round returns one label per point, each below the number of
    centroids, which the update step does not change. *)
Lemma lloyd_labels pts rounds : forall prev cs,
  cs <> [] ->
  (forall l, prev = Some l ->
     length l = length pts /\ Forall (fun c => (c < length cs)%nat) l) ->
  length (lloyd pts rounds prev cs) = length pts /\
  Forall (fun c => (c < length cs)%nat) (lloyd pts rounds prev cs).
Proof.
  induction rounds as [|rounds IH]; intros prev cs Hcs Hprev; simpl.
  - destruct prev as [l|].
    + now apply Hprev.
    + split; [apply assign_length | now apply assign_bound].
  - destruct (same_labels prev (assign pts cs) || settled cs _).
    + split; [apply assign_length | now apply assign_bound].
    + rewrite <- (update_length pts (assign pts cs) cs).
      apply IH.
      * apply nonempty_length. rewrite update_length.
        now apply nonempty_length.
      * intros l [= <-]. rewrite update_length.
        split; [apply assign_length | now apply assign_bound].
Qed.

Section Seeded.

Context {Seed : Type} (rand : Seed -> nat -> nat).

(** Drawing [k] centroids from a pool of at least [k] points yields [k]
    centroids. *)
Lemma draw_length seed k : forall j pool,
  (k <= length pool)%nat -> length (draw rand seed j k pool) = k.
Proof.
  induction k as [|k IH]; intros j pool Hk; simpl; [reflexivity|].
  assert (Hi : (rand seed j mod length pool < length pool)%nat)
    by (apply Nat.mod_upper_bound; lia).
  destruct (lookup_lt_is_Some_2 pool _ Hi) as [c Hc].
  rewrite Hc. simpl. f_equal. apply IH.
  rewrite length_delete by eauto. lia.
Qed.

(** On a valid input [cluster] succeeds, with one label per point, each
    below [k]. *)
Lemma cluster_valid seed pts k :
  pts <> [] -> 1 <= k <= Z.of_nat (length pts) ->
  exists labels : list nat,
    cluster rand seed pts k = inr (map InCluster labels) /\
    length labels = length pts /\
    Forall (fun c => Z.of_nat c < k) labels.
Proof.
  intros Hne Hk. unfold cluster.
  destruct pts as [|p pts']; [congruence|].
  set (pts := p :: pts') in *.
  destruct (k <? 1) eqn:H1; [apply Z.ltb_lt in H1; lia|].
  destruct (Z.of_nat (length pts) <? k) eqn:H2; [apply Z.ltb_lt in H2; lia|].
  simpl orb. cbv iota.
  set (cs := draw rand seed 0 (Z.to_nat k) pts).
  assert (Hlen : length cs = Z.to_nat k) by (apply draw_length; lia).
  assert (Hcs : cs <> []) by (apply nonempty_length; lia).
  destruct (lloyd_labels pts maxIterations None cs Hcs) as [Hl Hb];
    [discriminate|].
  exists (lloyd pts maxIterations None cs). split; [reflexivity|].
  split; [exact Hl|].
  eapply Forall_impl; [exact Hb|]. simpl. intros c Hc. lia.
Qed.

End Seeded.

End KMeansFacts.

(** ** DBSCAN as specified: the expansion terminates *)

Module DbscanFacts.
Import DbscanClusterer.

Lemma free_le_length marks : (free marks <= length marks)%nat.
Proof. unfold free. apply List.filter_length_le. Qed.

Lemma free_insert marks j m c :
  marks !! j = Some m -> is_assigned m = false ->
  (free (<[j := Assigned c]> marks) + 1 = free marks)%nat.
Proof.
  unfold free. revert j. induction marks as [|m' marks IH]; intros j Hj Hm.
  - discriminate.
  - destruct j as [|j]; simpl in *.
    + injection Hj as ->. rewrite Hm. simpl. lia.
    + specialize (IH j Hj Hm). destruct (negb (is_assigned m')); simpl; lia.
Qed.

Lemma unassigned_insert_ne marks j j' c :
  j <> j' -> unassigned (<[j := Assigned c]> marks) j' = unassigned marks j'.
Proof. intros Hne. unfold unassigned. now rewrite list_lookup_insert_ne. Qed.

Lemma assign_all_length c js : forall marks,
  length (assign_all c js marks) = length marks.
Proof.
  unfold assign_all. induction js as [|j js IH]; intros marks; simpl.
  - reflexivity.
  - now rewrite IH, length_insert.
Qed.

(** Assigning distinct unassigned points lowers [free] by their number. *)
Lemma free_assign_all c js : forall marks,
  NoDup js -> (forall j, j ∈ js -> unassigned marks j = true) ->
  (free (assign_all c js marks) + length js = free marks)%nat.
Proof.
  unfold assign_all. induction js as [|j js IH]; intros marks Hnd Hun; simpl.
  - lia.
  - apply NoDup_cons in Hnd as [Hnotin Hnd].
    assert (Hj : unassigned marks j = true) by (apply Hun; left).
    unfold unassigned in Hj. destruct (marks !! j) as [m|] eqn:Hm; [|discriminate].
    apply negb_true_iff in Hj.
    pose proof (free_insert marks j m c Hm Hj) as Hins.
    assert (IH' := IH (<[j := Assigned c]> marks) Hnd).
    rewrite <- Hins, <- IH'; [lia|].
    intros j' Hj'. rewrite unassigned_insert_ne.
    + apply Hun. now right.
    + intros ->. contradiction.
Qed.

Section Run.

Variables (pts : list (Q * Q)) (eps : Q) (minPts : Z).

Lemma fresh_NoDup marks p :
  NoDup (List.filter (unassigned marks) (neighbourhood pts eps p)).
Proof.
  unfold neighbourhood.
  apply NoDup_ListNoDup, List.NoDup_filter, List.NoDup_filter, List.seq_NoDup.
Qed.

Lemma fresh_unassigned marks p j :
  j ∈ List.filter (unassigned marks) (neighbourhood pts eps p) ->
  unassigned marks j = true.
Proof. intros Hj. apply list_elem_of_In, filter_In in Hj. tauto. Qed.

Lemma expand_length fuel c : forall queue marks,
  length (expand pts eps minPts fuel c queue marks) = length marks.
Proof.
  induction fuel as [|fuel IH]; intros queue marks; simpl; [reflexivity|].
  destruct queue as [|q rest]; [reflexivity|].
  destruct (is_core pts eps minPts q); [|apply IH].
  destruct (pts !! q); [|apply IH].
  now rewrite IH, assign_all_length.
Qed.

(** Any two amounts of fuel that cover the queue and the unassigned points
    give the same expansion: the fuel does not run out. *)
Lemma expand_fuel c : forall fuel1 fuel2 queue marks,
  (length queue + free marks <= fuel1)%nat ->
  (length queue + free marks <= fuel2)%nat ->
  expand pts eps minPts fuel1 c queue marks
  = expand pts eps minPts fuel2 c queue marks.
Proof.
  induction fuel1 as [|fuel1 IH]; intros fuel2 queue marks H1 H2.
  - destruct queue; [|simpl in H1; lia]. now destruct fuel2.
  - destruct queue as [|q rest]; [now destruct fuel2|].
    destruct fuel2 as [|fuel2]; [simpl in H2; lia|].
    simpl in *.
    destruct (is_core pts eps minPts q); [|apply IH; lia].
    destruct (pts !! q) as [p|]; [|apply IH; lia].
    pose proof (free_assign_all c _ marks (fresh_NoDup marks p)
                  (fresh_unassigned marks p)).
    apply IH; rewrite length_app; lia.
Qed.

Lemma scan_length fuel todo : forall next marks,
  length (fst (scan pts eps minPts fuel todo next marks)) = length marks.
Proof.
  induction todo as [|p rest IH]; intros next marks; simpl; [reflexivity|].
  destruct (marks !! p) as [[| |c]|]; try apply IH.
  destruct (is_core pts eps minPts p); rewrite IH.
  - now rewrite expand_length, length_insert.
  - now rewrite length_insert.
Qed.

Lemma scan_fuel fuel todo : forall next marks,
  (length marks <= fuel)%nat ->
  scan pts eps minPts fuel todo next marks
  = scan pts eps minPts (length marks) todo next marks.
Proof.
  induction todo as [|p rest IH]; intros next marks Hfuel; simpl; [reflexivity|].
  destruct (marks !! p) as [[| |c]|] eqn:Hp; try now apply IH.
  pose proof (free_le_length marks).
  destruct (is_core pts eps minPts p).
  - pose proof (free_insert marks p Unvisited next Hp eq_refl).
    rewrite (expand_fuel next fuel (length marks)) by (simpl; lia).
    rewrite IH by (now rewrite expand_length, length_insert).
    now rewrite expand_length, length_insert.
  - rewrite IH by (now rewrite length_insert).
    now rewrite length_insert.
Qed.

(** More expansion rounds than there are points change nothing: [run_marks]
    is the outcome of the run. *)
Lemma run_marks_fuel_enough fuel :
  (length pts <= fuel)%nat ->
  run_marks_fuel pts eps minPts fuel = run_marks pts eps minPts.
Proof.
  intros Hfuel. unfold run_marks, run_marks_fuel.
  rewrite scan_fuel by (now rewrite length_replicate).
  now rewrite length_replicate.
Qed.

(** DBSCAN returns one assignment per point. *)
Lemma cluster_length labels :
  cluster pts eps minPts = inr labels -> length labels = length pts.
Proof.
  unfold cluster. destruct (_ || _); [discriminate|].
  intros [= <-]. rewrite length_map.
  unfold run_marks, run_marks_fuel.
  now rewrite scan_length, length_replicate.
Qed.

End Run.

End DbscanFacts.

(** ** The component on the specified algorithms *)

Lemma kmeans_contract_overlap
    (f : list (Q * Q) -> Z -> ClusteringError + list ClusterAssignment) :
  ~ (forall pts k,
       (k < 1 \/ k > Z.of_nat (length pts) -> f pts k = inl InvalidParameter) /\
       (pts = [] -> f pts k = inl EmptyInput)).
Proof.
  intros H. destruct (H [] 1) as [Hinv Hemp].
  rewrite Hemp in Hinv by reflexivity.
  assert (Habs : @inl ClusteringError (list ClusterAssignment) EmptyInput
                 = inl InvalidParameter) by (apply Hinv; simpl; lia).
  discriminate Habs.
Qed.

Section SpecifiedFacts.

Context {Seed : Type} (rand : Seed -> nat -> nat).

(** C2, as amended: K-means fails with [InvalidParameter] on a non-empty
    input when [k < 1] or [k > points.length]; on an empty input, where
    one of the two always holds, it fails too, with a single error; no
    assignments are produced, and [runClustering] hands the input back with
    the error recorded.  The component itself starts no run on an empty
    [rawData]. *)
Theorem kmeans_invalid_input seed st data k :
  algorithm st = "kmeans" ->
  data = [] \/ k < 1 \/ k > Z.of_nat (length data) ->
  (exists e,
     KMeansClusterer.cluster rand seed (coordinates data) k = inl e /\
     (data <> [] -> e = InvalidParameter) /\
     specRunClustering rand seed st data k
     = (data, Some ("Error running clustering algorithm: " ++ error_name e)%string)) /\
  (rawData st = [] -> specClusteringEffect rand seed st = st).
Proof.
  intros Ha Hbad. split.
  - assert (Hc : exists e,
              KMeansClusterer.cluster rand seed (coordinates data) k = inl e /\
              (data <> [] -> e = InvalidParameter)).
    { unfold KMeansClusterer.cluster.
      destruct data as [|d rest].
      - exists EmptyInput. split; [reflexivity | congruence].
      - exists InvalidParameter. split; [|reflexivity].
        destruct Hbad as [Hnil|Hk]; [discriminate|].
        cbn [coordinates map]. rewrite length_cons, length_map.
        rewrite length_cons in Hk.
        destruct (k <? 1) eqn:H1; [reflexivity|].
        destruct (Z.of_nat (S (length rest)) <? k) eqn:H2; [reflexivity|].
        apply Z.ltb_ge in H1, H2. lia. }
    destruct Hc as (e & Hc & He). exists e.
    split; [exact Hc|]. split; [exact He|].
    unfold specRunClustering.
    apply run_kmeans_throws; [exact Ha|].
    unfold KMeansClusterer.KMeans. now rewrite Hc.
  - apply effect_no_points.
Qed.

(** C3: DBSCAN fails with [InvalidParameter] when [epsilon <= 0] or
    [minPoints < 1]; no assignments are produced, and [runClustering] hands
    the input back with the error recorded. *)
Theorem dbscan_invalid_parameter seed st data k :
  algorithm st = "dbscan" ->
  (epsilon st <= 0)%Q \/ minPoints st < 1 ->
  DbscanClusterer.cluster (coordinates data) (epsilon st) (minPoints st)
  = inl InvalidParameter /\
  specRunClustering rand seed st data k
  = (data, Some "Error running clustering algorithm: InvalidParameter"%string).
Proof.
  intros Ha Hbad.
  assert (Hc : DbscanClusterer.cluster (coordinates data) (epsilon st) (minPoints st)
               = inl InvalidParameter).
  { unfold DbscanClusterer.cluster.
    destruct Hbad as [He|Hm].
    - apply Qle_bool_iff in He. now rewrite He.
    - apply Z.ltb_lt in Hm. rewrite Hm. now rewrite orb_true_r. }
  split; [exact Hc|].
  unfold specRunClustering.
  rewrite (run_dbscan_throws error_name _ DbscanClusterer.run seed st data k
             InvalidParameter Ha); [reflexivity|].
  unfold DbscanClusterer.run. now rewrite Hc.
Qed.

(** C8: on a non-empty input of [n] points and [1 <= k <= n], K-means
    succeeds with [n] assignments, each a cluster index below [k];
    [runClustering] attaches them in order; a second run on the same input
    with the same seed returns the same array. *)
Theorem kmeans_assignments seed st data k :
  algorithm st = "kmeans" ->
  data <> [] ->
  1 <= k <= Z.of_nat (length data) ->
  (exists labels : list nat,
     KMeansClusterer.cluster rand seed (coordinates data) k
     = inr (map InCluster labels) /\
     length labels = length data /\
     Forall (fun c => Z.of_nat c < k) labels /\
     fst (specRunClustering rand seed st data k)
     = imap (fun i d => with_cluster d (Z.of_nat <$> labels !! i)) data) /\
  length (fst (specRunClustering rand seed st data k)) = length data /\
  (forall i d', fst (specRunClustering rand seed st data k) !! i = Some d' ->
     exists l, cluster d' = Some l /\ 0 <= l < k) /\
  (forall st', algorithm st' = "kmeans" ->
     fst (specRunClustering rand seed st' data k)
     = fst (specRunClustering rand seed st data k)).
Proof.
  intros Ha Hne Hk.
  destruct (KMeansFacts.cluster_valid rand seed (coordinates data) k)
    as (labels & Hc & Hlen & Hb).
  { destruct data; [congruence | discriminate]. }
  { unfold coordinates. now rewrite length_map. }
  unfold coordinates in Hlen. rewrite length_map in Hlen.
  assert (Hrun : forall st', algorithm st' = "kmeans" ->
            fst (specRunClustering rand seed st' data k)
            = imap (fun i d => with_cluster d (Z.of_nat <$> labels !! i)) data).
  { intros st' Ha'. unfold specRunClustering.
    erewrite run_kmeans_ok; [|exact Ha'|].
    2:{ unfold KMeansClusterer.KMeans. rewrite Hc. reflexivity. }
    simpl. apply imap_ext. intros i d _. f_equal.
    rewrite !list_lookup_fmap. now destruct (labels !! i). }
  split; [|split; [|split]].
  - exists labels. repeat split; auto.
  - rewrite (Hrun st Ha). apply length_imap.
  - intros i d'. rewrite (Hrun st Ha), list_lookup_imap.
    destruct (data !! i) as [d|] eqn:Hd; [|discriminate].
    simpl. intros [= <-]. simpl.
    destruct (lookup_lt_is_Some_2 labels i) as [c Hc'].
    { rewrite Hlen. now apply lookup_lt_Some in Hd. }
    rewrite Hc'. simpl. exists (Z.of_nat c). split; [reflexivity|].
    rewrite Forall_forall in Hb.
    pose proof (Hb c (list_elem_of_lookup_2 _ _ _ Hc')). lia.
  - intros st' Ha'. now rewrite (Hrun st' Ha'), (Hrun st Ha).
Qed.

End SpecifiedFacts.

(** C7: on the points [(0,0), (0,1), (10,10), (10,11)] with [epsilon = 2]
    and [minPoints = 2], DBSCAN finds two clusters, the points at indices
    0 and 1 and the points at indices 2 and 3, and no noise;
    [runClustering] labels the four points 0, 0, 1, 1. *)
Theorem dbscan_scenario {Seed : Type} (rand : Seed -> nat -> nat) seed st k :
  algorithm st = "dbscan" -> epsilon st = 2%Q -> minPoints st = 2 ->
  DbscanClusterer.cluster scenario 2 2
  = inr [InCluster 0; InCluster 0; InCluster 1; InCluster 1] /\
  DbscanClusterer.numClusters scenario 2 2 = 2%nat /\
  DbscanClusterer.run scenario 2 2 = inr [[0; 1]; [2; 3]] /\
  fst (specRunClustering rand seed st scenario_data k) = scenario_clustered.
Proof.
  intros Ha He Hm.
  split; [now vm_compute|]. split; [now vm_compute|].
  split; [now vm_compute|].
  unfold specRunClustering.
  erewrite run_dbscan_ok; [|exact Ha|].
  2:{ rewrite He, Hm. vm_compute. reflexivity. }
  now vm_compute.
Qed.

(** ** The properties at concrete inputs *)

Lemma runClustering_length_order_witness :
  algorithm dbscan_state = "dbscan" /\
  length (fst (specRunClustering counting_source O dbscan_state scenario_data 3))
  = length scenario_data.
Proof.
  split; [reflexivity|].
  apply (runClustering_length_order error_name
           (KMeansClusterer.KMeans counting_source) DbscanClusterer.run
           O dbscan_state scenario_data 3).
  right. reflexivity.
Defined.

Lemma runClustering_unknown_algorithm_witness :
  specRunClustering counting_source O unknown_state scenario_data 3
  = (scenario_data, None).
Proof.
  apply (runClustering_unknown_algorithm error_name
           (KMeansClusterer.KMeans counting_source) DbscanClusterer.run
           O unknown_state scenario_data 3); vm_compute; discriminate.
Defined.

Lemma failed_run_outcome_witness :
  clusteredData (specClusteringEffect counting_source O stale_state)
  = scenario_data /\
  error (specClusteringEffect counting_source O stale_state)
  = Some "Error running clustering algorithm: InvalidParameter"%string.
Proof.
  apply (failed_run_outcome error_name
           (KMeansClusterer.KMeans counting_source) DbscanClusterer.run
           O stale_state InvalidParameter).
  - vm_compute. discriminate.
  - left. split; reflexivity.
Defined.

(** C4, as stated, fails: after the failed run the displayed data are the
    unlabelled input, not the assignments displayed before. *)
Lemma failed_run_drops_assignments :
  KMeansClusterer.KMeans counting_source O
    (coordinates (rawData stale_state)) (clusters stale_state)
  = inl InvalidParameter /\
  clusteredData stale_state = scenario_clustered /\
  clusteredData (specClusteringEffect counting_source O stale_state)
  = scenario_data /\
  clusteredData (specClusteringEffect counting_source O stale_state)
  <> clusteredData stale_state.
Proof.
  split; [reflexivity|]. split; [reflexivity|]. split; [reflexivity|].
  vm_compute. discriminate.
Qed.

Lemma dbscan_labels_witness :
  exists l : Z,
    cluster (mkDataPoint 10 10 (Some 1)) = Some l /\
    ((l = -1 /\ forall c, c ∈ [[0; 1]; [2; 3]] -> Z.of_nat 2 ∉ c) \/
     (0 <= l < Z.of_nat (length [[0; 1]; [2; 3]]) /\
      exists c, [[0; 1]; [2; 3]] !! Z.to_nat l = Some c /\ Z.of_nat 2 ∈ c /\
        forall m c', (m < Z.to_nat l)%nat -> [[0; 1]; [2; 3]] !! m = Some c' ->
                     Z.of_nat 2 ∉ c')).
Proof.
  apply (dbscan_labels error_name
           (KMeansClusterer.KMeans counting_source) DbscanClusterer.run
           O dbscan_state scenario_data 3 [[0; 1]; [2; 3]] 2%nat
           (mkDataPoint 10 10 (Some 1))); reflexivity.
Defined.

Lemma kmeans_invalid_input_witness :
  exists e,
    KMeansClusterer.cluster counting_source O (coordinates scenario_data) 5
    = inl e /\
    (scenario_data <> [] -> e = InvalidParameter) /\
    specRunClustering counting_source O stale_state scenario_data 5
    = (scenario_data,
       Some ("Error running clustering algorithm: " ++ error_name e)%string).
Proof.
  apply (kmeans_invalid_input counting_source O stale_state scenario_data 5).
  - reflexivity.
  - right. right. simpl. lia.
Defined.

(** C2, as stated, fails on the empty input with [k = 1]: there [k]
    exceeds the number of points, for which the claim asks
    [InvalidParameter], and the input is empty, for which it asks
    [EmptyInput]; whatever the K-means call does, the run reports one error
    at most, not both. *)
Lemma kmeans_errors_overlap :
  1 > Z.of_nat (length (@nil DataPoint)) /\
  ~ (exists KMeans : unit -> list (Q * Q) -> Z
                     -> ClusteringError + ml_kmeans.Result,
       KMeans tt (coordinates []) 1 = inl InvalidParameter /\
       KMeans tt (coordinates []) 1 = inl EmptyInput) /\
  ~ (exists KMeans : unit -> list (Q * Q) -> Z
                     -> ClusteringError + ml_kmeans.Result,
       snd (runClustering error_name KMeans DbscanClusterer.run
              tt stale_state [] 1)
       = Some (error_text error_name InvalidParameter) /\
       snd (runClustering error_name KMeans DbscanClusterer.run
              tt stale_state [] 1)
       = Some (error_text error_name EmptyInput)).
Proof.
  split; [simpl; lia|]. split.
  - intros (KMeans & H1 & H2). rewrite H1 in H2. discriminate.
  - intros (KMeans & H1 & H2). rewrite H1 in H2. cbv in H2. discriminate.
Qed.

Lemma dbscan_invalid_parameter_witness :
  DbscanClusterer.cluster (coordinates scenario_data) 0 2
  = inl InvalidParameter /\
  specRunClustering counting_source O zero_radius_state scenario_data 3
  = (scenario_data,
     Some "Error running clustering algorithm: InvalidParameter"%string).
Proof.
  apply (dbscan_invalid_parameter counting_source O zero_radius_state
           scenario_data 3).
  - reflexivity.
  - left. vm_compute. discriminate.
Defined.

Lemma dbscan_scenario_witness :
  fst (specRunClustering counting_source O dbscan_state scenario_data 3)
  = scenario_clustered.
Proof.
  apply (dbscan_scenario counting_source O dbscan_state 3); reflexivity.
Defined.

Lemma kmeans_assignments_witness :
  length (fst (specRunClustering counting_source O stale_state scenario_data 2))
  = length scenario_data.
Proof.
  apply (kmeans_assignments counting_source O stale_state scenario_data 2).
  - reflexivity.
  - vm_compute. discriminate.
  - simpl. lia.
Defined.


(** * Further properties of the component *)

(** ** The label of line 45 *)

Lemma findIndex_from_None {A : Type} (p : A -> bool) (arr : list A) (i : Z) :
  JS.find p arr = None -> JS.findIndex_from p arr i = -1.
Proof.
  revert i. induction arr as [|a rest IH]; intros i; simpl; [reflexivity|].
  destruct (p a); [discriminate|]. apply IH.
Qed.

(** X1: the test on [find] in line 45 decides nothing: the label is what
    [findIndex] returns, found or not. *)
Theorem dbscan_label_findIndex (cls : list (list Z)) (i : nat) :
  dbscan_label cls i = JS.findIndex (fun c => JS.includes c (Z.of_nat i)) cls.
Proof.
  unfold dbscan_label.
  destruct (JS.find _ cls) eqn:Hfind; [reflexivity|].
  unfold JS.findIndex. now rewrite findIndex_from_None.
Qed.

Lemma findIndex_from_at {A : Type} (p : A -> bool) (arr : list A) (i : Z) (n : nat) (a : A) :
  arr !! n = Some a -> p a = true ->
  (forall m b, (m < n)%nat -> arr !! m = Some b -> p b = false) ->
  JS.findIndex_from p arr i = i + Z.of_nat n.
Proof.
  revert i n. induction arr as [|b rest IH]; intros i n Hn Hp Hfirst; [discriminate|].
  simpl. destruct n as [|n].
  - injection Hn as ->. rewrite Hp. lia.
  - rewrite (Hfirst O b) by (lia || reflexivity).
    rewrite (IH (i + 1) n); [lia|exact Hn|exact Hp|].
    intros m c Hm Hc. apply (Hfirst (S m) c); [lia|exact Hc].
Qed.

(** X2: a point that is in cluster number [c] and in no earlier cluster is
    labelled [c]; with clusters that do not overlap, the label of a point
    is the number of the cluster that holds it. *)
Theorem dbscan_label_of_member (cls : list (list Z)) (i c : nat) (m : list Z) :
  cls !! c = Some m ->
  Z.of_nat i ∈ m ->
  (forall c' m', (c' < c)%nat -> cls !! c' = Some m' -> Z.of_nat i ∉ m') ->
  dbscan_label cls i = Z.of_nat c.
Proof.
  intros Hc Hin Hfirst. unfold dbscan_label.
  destruct (JS.find _ cls) eqn:Hfind.
  - unfold JS.findIndex.
    rewrite (findIndex_from_at _ cls 0 c m Hc); [lia| |].
    + now apply includes_spec.
    + intros c' m' Hlt Hm'.
      destruct (JS.includes m' (Z.of_nat i)) eqn:Hinc; [|reflexivity].
      apply includes_spec in Hinc. now destruct (Hfirst c' m' Hlt Hm').
  - rewrite find_None in Hfind.
    apply includes_spec in Hin.
    rewrite (Hfind m) in Hin; [discriminate|].
    now apply list_elem_of_lookup_2 with c.
Qed.

(** ** Runs, re-runs and the error cell *)

Lemma imap_with_cluster (f : nat -> option Z) : forall data data',
  coordinates data' = coordinates data ->
  imap (fun i d => with_cluster d (f i)) data'
  = imap (fun i d => with_cluster d (f i)) data.
Proof.
  intros data. revert f.
  induction data as [|d rest IH]; intros f [|d' rest'] Hc; try discriminate.
  - reflexivity.
  - simpl in Hc. injection Hc as Hx Hy Hrest. simpl.
    f_equal.
    + unfold with_cluster. now rewrite Hx, Hy.
    + apply (IH (f ∘ S)). exact Hrest.
Qed.

Section ComponentFacts.

Context {exn : Type} (message : exn -> string).
Context {entropy : Type}.
Variable KMeans : entropy -> list (Q * Q) -> Z -> exn + ml_kmeans.Result.
Variable DBSCAN_run : list (Q * Q) -> Q -> Z -> exn + list (list Z).

Local Abbreviation run := (runClustering message KMeans DBSCAN_run).
Local Abbreviation effect := (clusteringEffect message KMeans DBSCAN_run).

(** The library call of a run returned instead of throwing. *)
Local Abbreviation returns rnd st data k :=
  ((algorithm st = "kmeans" /\
    exists r, KMeans rnd (coordinates data) k = inr r) \/
   (algorithm st = "dbscan" /\
    exists cls, DBSCAN_run (coordinates data) (epsilon st) (minPoints st) = inr cls)).

Lemma run_coordinates rnd st data k :
  coordinates (fst (run rnd st data k)) = coordinates data.
Proof.
  apply list_eq. intros i. unfold coordinates.
  rewrite !list_lookup_fmap.
  destruct (data !! i) as [d|] eqn:Hd.
  - destruct (run_pointwise message KMeans DBSCAN_run rnd st data k i d Hd)
      as [lab ->]. reflexivity.
  - apply lookup_ge_None in Hd.
    rewrite (proj2 (lookup_ge_None _ i)); [reflexivity|].
    now rewrite run_length.
Qed.

(** The returned array depends on the state only through [algorithm],
    [epsilon] and [minPoints]; the error cell passes through unless the
    call throws. *)
Lemma run_same_parameters rnd st st' data k :
  algorithm st' = algorithm st -> epsilon st' = epsilon st ->
  minPoints st' = minPoints st ->
  fst (run rnd st' data k) = fst (run rnd st data k) /\
  (error st' = snd (run rnd st data k) ->
   snd (run rnd st' data k) = snd (run rnd st data k)).
Proof.
  intros Ha He Hm. unfold runClustering. rewrite Ha, He, Hm.
  destruct (String.eqb (algorithm st) "kmeans").
  { destruct (KMeans _ _ _); simpl; auto. }
  destruct (String.eqb (algorithm st) "dbscan").
  { destruct (DBSCAN_run _ _ _); simpl; auto. }
  simpl. auto.
Qed.

(** X4: when the library call returns, the labels an input point already
    carries play no part: clustering the output of an earlier run gives
    what clustering the original points gives. *)
Theorem reclustering rnd0 st0 k0 rnd st data k :
  returns rnd st data k ->
  fst (run rnd st (fst (run rnd0 st0 data k0)) k) = fst (run rnd st data k).
Proof.
  intros Hret.
  pose proof (run_coordinates rnd0 st0 data k0) as Hc.
  destruct Hret as [[Ha [r Hr]]|[Ha [cls Hr]]].
  - rewrite (run_kmeans_ok message KMeans DBSCAN_run rnd st data k r Ha Hr).
    rewrite (run_kmeans_ok message KMeans DBSCAN_run rnd st _ k r Ha)
      by (now rewrite Hc).
    simpl. now apply imap_with_cluster.
  - rewrite (run_dbscan_ok message KMeans DBSCAN_run rnd st data k cls Ha Hr).
    rewrite (run_dbscan_ok message KMeans DBSCAN_run rnd st _ k cls Ha)
      by (now rewrite Hc).
    simpl.
    now apply (imap_with_cluster (fun i => Some (dbscan_label cls i))).
Qed.

(** X5: running the effect again on the state it produced, with the same random
    state, changes nothing. *)
Theorem effect_idempotent rnd st :
  clusteringEffect message KMeans DBSCAN_run rnd
    (clusteringEffect message KMeans DBSCAN_run rnd st)
  = clusteringEffect message KMeans DBSCAN_run rnd st.
Proof.
  unfold clusteringEffect at 2.
  destruct (0 <? length (rawData st))%nat eqn:Hlen.
  - set (r := run rnd st (rawData st) (clusters st)).
    unfold clusteringEffect. simpl. rewrite Hlen.
    set (st' := {| rawData := rawData st; clusteredData := fst r |}).
    destruct (run_same_parameters rnd st st' (rawData st) (clusters st))
      as [Hfst Hsnd]; try reflexivity.
    fold r in Hfst, Hsnd. rewrite Hfst, Hsnd; reflexivity.
  - unfold clusteringEffect. now rewrite Hlen.
Qed.

(** The library call of a run threw [err]. *)
Local Abbreviation threw rnd st data k err :=
  ((algorithm st = "kmeans" /\
    KMeans rnd (coordinates data) k = inl err) \/
   (algorithm st = "dbscan" /\
    DBSCAN_run (coordinates data) (epsilon st) (minPoints st) = inl err)).

Lemma error_text_shown err st :
  error st = Some (error_text message err) ->
  errorBanner st = Some (error_text message err).
Proof. intros H. unfold errorBanner. now rewrite H. Qed.

Lemma effect_unfold rnd st :
  rawData st <> [] ->
  effect rnd st
  = {| rawData := rawData st;
       clusteredData := fst (run rnd st (rawData st) (clusters st));
       clusters := clusters st;
       algorithm := algorithm st;
       epsilon := epsilon st;
       minPoints := minPoints st;
       error := snd (run rnd st (rawData st) (clusters st)) |}.
Proof.
  intros Hne. unfold clusteringEffect.
  destruct (rawData st); [congruence | reflexivity].
Qed.

(** X6: a message outlives the failure it reports: after a K-means run that
    threw, a new cluster count for which the call returns brings the
    labels, and the banner still shows the old message. *)
Theorem error_outlives_success rnd1 rnd2 st err k' r :
  rawData st <> [] ->
  algorithm st = "kmeans" ->
  KMeans rnd1 (coordinates (rawData st)) (clusters st) = inl err ->
  k' <> clusters st ->
  KMeans rnd2 (coordinates (rawData st)) k' = inr r ->
  errorBanner (effect rnd1 st) = Some (error_text message err) /\
  clusteredData (effect rnd2 (handleClusterChange k' (effect rnd1 st)))
  = imap (fun i d => with_cluster d (ml_kmeans.clusters r !! i)) (rawData st) /\
  errorBanner (effect rnd2 (handleClusterChange k' (effect rnd1 st)))
  = Some (error_text message err).
Proof.
  intros Hne Ha Hfail _ Hok.
  rewrite (effect_unfold rnd1 st Hne).
  rewrite (run_kmeans_throws message KMeans DBSCAN_run rnd1 st _ _ err Ha Hfail).
  simpl fst. simpl snd.
  split; [now apply error_text_shown|].
  rewrite effect_unfold by exact Hne.
  cbn [handleClusterChange rawData clusters clusteredData error].
  erewrite run_kmeans_ok; [|exact Ha|exact Hok].
  split; [reflexivity|]. now apply error_text_shown.
Qed.

End ComponentFacts.

(** ** Generated data *)

Section GenerateFacts.

Variable random : nat -> Q.

Lemma generateRandomData_length calls :
  length (generateRandomData random calls) = 100%nat.
Proof. unfold generateRandomData. now rewrite length_map, length_seq. Qed.

Lemma generateRandomData_nonempty calls :
  generateRandomData random calls <> [].
Proof.
  intros H. pose proof (generateRandomData_length calls) as Hl.
  rewrite H in Hl. discriminate.
Qed.

(** X7: with [Math.random] answering in [0, 1), [generateRandomData] yields
    100 points without label, all within the 800 by 600 drawing area. *)
Theorem generateRandomData_in_canvas calls :
  (forall n, (0 <= random n)%Q /\ (random n < 1)%Q) ->
  length (generateRandomData random calls) = 100%nat /\
  Forall (fun d => (0 <= x d)%Q /\ (x d < 800)%Q /\
                   (0 <= y d)%Q /\ (y d < 600)%Q /\ cluster d = None)
         (generateRandomData random calls).
Proof.
  intros Hrange. split; [apply generateRandomData_length|].
  unfold generateRandomData. apply Forall_map, Forall_forall.
  intros i _. cbn [x y cluster].
  destruct (Hrange (calls + 2 * i)%nat) as [Hx0 Hx1].
  destruct (Hrange (calls + 2 * i + 1)%nat) as [Hy0 Hy1].
  repeat split; try reflexivity; lra.
Qed.

Context {exn : Type} (message : exn -> string).
Context {entropy : Type}.
Variable KMeans : entropy -> list (Q * Q) -> Z -> exn + ml_kmeans.Result.
Variable DBSCAN_run : list (Q * Q) -> Q -> Z -> exn + list (list Z).

Local Abbreviation run := (runClustering message KMeans DBSCAN_run).
Local Abbreviation effect := (clusteringEffect message KMeans DBSCAN_run).

(** X8: "Generate New Data" followed by the clustering effect: the 100 new
    points are displayed at their positions; when the run on the new points
    throws, the banner shows the message of that run, and when it does not
    throw, the banner is empty; a message from before never stays. *)
Theorem generate_then_cluster calls rnd st :
  let st0 := handleGenerateData random calls st in
  let st1 := effect rnd st0 in
  rawData st1 = generateRandomData random calls /\
  coordinates (clusteredData st1)
  = coordinates (generateRandomData random calls) /\
  (forall err,
     (algorithm st = "kmeans" /\
      KMeans rnd (coordinates (rawData st0)) (clusters st) = inl err) \/
     (algorithm st = "dbscan" /\
      DBSCAN_run (coordinates (rawData st0)) (epsilon st) (minPoints st)
      = inl err) ->
     error st1 = Some (error_text message err) /\
     errorBanner st1 = Some (error_text message err)) /\
  ((forall err,
      ~ (algorithm st = "kmeans" /\
         KMeans rnd (coordinates (rawData st0)) (clusters st) = inl err) /\
      ~ (algorithm st = "dbscan" /\
         DBSCAN_run (coordinates (rawData st0)) (epsilon st) (minPoints st)
         = inl err)) ->
   error st1 = None /\ errorBanner st1 = None).
Proof.
  intros st0 st1. subst st1.
  assert (Hne : rawData st0 <> []) by apply generateRandomData_nonempty.
  rewrite (effect_unfold message KMeans DBSCAN_run rnd st0 Hne).
  set (r := run rnd st0 (rawData st0) (clusters st0)).
  cbn [rawData clusteredData error].
  split; [reflexivity|].
  split; [apply run_coordinates|].
  unfold errorBanner. cbn [error].
  split.
  - intros err Hthrew.
    assert (Hr : r = (rawData st0, Some (error_text message err))).
    { destruct Hthrew as [[Ha Hr]|[Ha Hr]].
      - now apply run_kmeans_throws.
      - now apply run_dbscan_throws. }
    rewrite Hr. now split.
  - intros Hnone. unfold r, runClustering.
    cbn [algorithm epsilon minPoints error clusters st0 handleGenerateData].
    destruct (String.eqb (algorithm st) "kmeans") eqn:Hk.
    { apply String.eqb_eq in Hk.
      destruct (KMeans _ _ _) as [err|res] eqn:Hr; simpl; [|now split].
      destruct (Hnone err) as [H _]. destruct H. now split. }
    destruct (String.eqb (algorithm st) "dbscan") eqn:Hd.
    { apply String.eqb_eq in Hd.
      destruct (DBSCAN_run _ _ _) as [err|cls] eqn:Hr; simpl; [|now split].
      destruct (Hnone err) as [_ H]. destruct H. now split. }
    simpl. now split.
Qed.

End GenerateFacts.

(** ** Grouping and means of the drawing effect *)

Section GroupFacts.

Context {K V : Type} (eqb : K -> K -> bool) (key : V -> K).
Hypothesis eqb_spec : forall a b, eqb a b = true <-> a = b.

Lemma eqb_false a b : eqb a b = false <-> a <> b.
Proof.
  destruct (eqb a b) eqn:H.
  - apply eqb_spec in H. split; [discriminate | contradiction].
  - split; [|reflexivity]. intros _ Hab. apply eqb_spec in Hab. congruence.
Qed.

(** A key that has no group yet opens one at the end. *)
Lemma keys_in_or_out (k : K) (groups : list (K * list V)) :
  k ∈ map fst groups \/ k ∉ map fst groups.
Proof.
  induction groups as [|[k' vs] rest IH]; simpl.
  - right. intros H. inversion H.
  - destruct (eqb k k') eqn:Hkk.
    + apply eqb_spec in Hkk. subst. left. left.
    + apply eqb_false in Hkk. destruct IH as [IH|IH].
      * left. now right.
      * right. intros H. apply elem_of_cons in H as [H|H]; contradiction.
Qed.

Lemma filter_none (p : V -> bool) (l : list V) :
  (forall v, v ∈ l -> p v = false) -> List.filter p l = [].
Proof.
  induction l as [|v l IH]; intros H; simpl; [reflexivity|].
  rewrite (H v) by left. apply IH. intros v' Hv'. apply H. now right.
Qed.

Lemma add_to_group_new (k : K) (v : V) (groups : list (K * list V)) :
  k ∉ map fst groups ->
  D3.add_to_group eqb k v groups = groups ++ [(k, [v])].
Proof.
  induction groups as [|[k' vs] rest IH]; intros Hk; simpl; [reflexivity|].
  simpl in Hk. apply not_elem_of_cons in Hk as [Hne Hk].
  apply eqb_false in Hne. rewrite Hne. now rewrite IH.
Qed.

(** A key that has a group extends it and leaves the others alone. *)
Lemma add_to_group_old (k : K) (v : V) (groups : list (K * list V)) :
  NoDup (map fst groups) -> k ∈ map fst groups ->
  D3.add_to_group eqb k v groups
  = map (fun g => if eqb k (fst g) then (fst g, snd g ++ [v]) else g) groups.
Proof.
  induction groups as [|[k' vs] rest IH]; intros Hnd Hk; simpl.
  - inversion Hk.
  - simpl in Hnd. apply NoDup_cons in Hnd as [Hnotin Hnd].
    destruct (eqb k k') eqn:Hkk.
    + apply eqb_spec in Hkk. subst k'. f_equal.
      clear IH Hk. induction rest as [|[k2 vs2] rest IH]; [reflexivity|].
      simpl in *. apply not_elem_of_cons in Hnotin as [Hne Hnotin].
      apply NoDup_cons in Hnd as [_ Hnd].
      apply eqb_false in Hne. rewrite Hne. f_equal. now apply IH.
    + f_equal. apply IH; [exact Hnd|].
      simpl in Hk. apply elem_of_cons in Hk as [->|Hk]; [|exact Hk].
      apply eqb_false in Hkk. congruence.
Qed.

Lemma filter_snoc (p : V -> bool) (l : list V) (v : V) :
  List.filter p (l ++ [v]) = List.filter p l ++ (if p v then [v] else []).
Proof. rewrite List.filter_app. reflexivity. Qed.

Lemma grouped_add (groups : list (K * list V)) (l : list V) (v : V) :
  grouped eqb key groups l ->
  grouped eqb key (D3.add_to_group eqb (key v) v groups) (l ++ [v]).
Proof.
  intros (Hnd & Hgr & Hall).
  destruct (keys_in_or_out (key v) groups) as [Hin|Hnotin].
  - rewrite add_to_group_old by assumption.
    assert (Hkeys : map fst (map (fun g : K * list V =>
                       if eqb (key v) (fst g) then (fst g, snd g ++ [v]) else g)
                     groups) = map fst groups).
    { rewrite map_map. apply map_ext. intros [k vs]. simpl.
      now destruct (eqb (key v) k). }
    split; [now rewrite Hkeys|]. split.
    + intros k vs Hk. apply list_elem_of_fmap in Hk as ([k0 vs0] & Heq & Hg).
      simpl in Heq. destruct (Hgr k0 vs0 Hg) as [Hvs0 Hne0].
      rewrite filter_snoc.
      destruct (eqb (key v) k0) eqn:Hkk; injection Heq as -> ->.
      * rewrite Hkk. split; [now rewrite Hvs0|].
        intros Habs. now apply app_eq_nil in Habs as [_ Habs].
      * rewrite Hkk, app_nil_r. now split.
    + intros v' Hv'. rewrite Hkeys.
      apply elem_of_app in Hv' as [Hv'|Hv']; [now apply Hall|].
      apply list_elem_of_singleton in Hv'. now subst v'.
  - rewrite add_to_group_new by assumption.
    split; [|split].
    + rewrite map_app. simpl. apply NoDup_app. split; [exact Hnd|].
      split; [|apply NoDup_singleton].
      intros k Hk Hk'. apply list_elem_of_singleton in Hk'. now subst k.
    + intros k vs Hk. rewrite filter_snoc.
      apply elem_of_app in Hk as [Hk|Hk].
      * destruct (Hgr k vs Hk) as [Hvs Hne].
        assert (Hkk : eqb (key v) k = false).
        { apply eqb_false. intros <-. apply Hnotin.
          apply list_elem_of_fmap. now exists (key v, vs). }
        rewrite Hkk, app_nil_r. now split.
      * apply list_elem_of_singleton in Hk. injection Hk as -> ->.
        rewrite (proj2 (eqb_spec (key v) (key v)) eq_refl).
        split; [|discriminate].
        rewrite filter_none; [reflexivity|].
        intros v' Hv'. apply eqb_false. intros Heq.
        apply Hnotin. rewrite <- Heq. now apply Hall.
    + intros v' Hv'. rewrite map_app. apply elem_of_app.
      apply elem_of_app in Hv' as [Hv'|Hv']; [left; now apply Hall|].
      apply list_elem_of_singleton in Hv'. subst v'. right. simpl. left.
Qed.

Lemma grouped_foldl (l : list V) : forall groups l0,
  grouped eqb key groups l0 ->
  grouped eqb key (foldl (fun gs v => D3.add_to_group eqb (key v) v gs) groups l)
          (l0 ++ l).
Proof.
  induction l as [|v l IH]; intros groups l0 Hg; simpl.
  - now rewrite app_nil_r.
  - replace (l0 ++ v :: l) with ((l0 ++ [v]) ++ l)
      by (now rewrite <- app_assoc).
    apply IH. now apply grouped_add.
Qed.

Lemma group_grouped (values : list V) :
  grouped eqb key (D3.group eqb values key) values.
Proof.
  apply (grouped_foldl values [] []).
  split; [constructor|].
  split; [intros k vs H | intros v H]; inversion H.
Qed.

End GroupFacts.

Lemma same_key_spec (a b : option Z) : same_key a b = true <-> a = b.
Proof.
  destruct a as [m|], b as [n|]; simpl; split; try congruence.
  - intros H. apply Z.eqb_eq in H. now subst.
  - intros [= ->]. apply Z.eqb_refl.
Qed.

Lemma inject_nat_succ (n : nat) :
  (inject_Z (Z.of_nat (S n)) == inject_Z (Z.of_nat n) + 1)%Q.
Proof. rewrite Nat2Z.inj_succ, <- Z.add_1_r, inject_Z_plus. reflexivity. Qed.

Lemma inject_nat_pos (n : nat) : (0 < inject_Z (Z.of_nat (S n)))%Q.
Proof.
  replace 0%Q with (inject_Z 0) by reflexivity.
  rewrite <- Zlt_Qlt. lia.
Qed.

(** A sum accumulated from [a] lies between [a] plus the count times a
    lower bound and [a] plus the count times an upper bound of the
    summands. *)
Lemma foldl_sum_bounds (lo hi : Q) (qs : list Q) : forall a : Q,
  Forall (fun q => (lo <= q)%Q /\ (q <= hi)%Q) qs ->
  (a + inject_Z (Z.of_nat (length qs)) * lo <= foldl Qplus a qs)%Q /\
  (foldl Qplus a qs <= a + inject_Z (Z.of_nat (length qs)) * hi)%Q.
Proof.
  induction qs as [|q qs IH]; intros a Hall.
  - cbn [foldl length]. change (inject_Z (Z.of_nat 0)) with 0%Q. split; lra.
  - apply Forall_cons in Hall as [[Hlo Hhi] Hall].
    destruct (IH (a + q)%Q Hall) as [IHlo IHhi].
    cbn [foldl length]. pose proof (inject_nat_succ (length qs)) as Hs.
    split.
    + rewrite Hs. lra.
    + rewrite Hs. lra.
Qed.

(** The same with a strict upper bound, for at least one summand. *)
Lemma foldl_sum_below (hi : Q) (qs : list Q) : forall a : Q,
  qs <> [] ->
  Forall (fun q => (q < hi)%Q) qs ->
  (foldl Qplus a qs < a + inject_Z (Z.of_nat (length qs)) * hi)%Q.
Proof.
  induction qs as [|q qs IH]; intros a Hne Hall; [congruence|].
  apply Forall_cons in Hall as [Hhi Hall].
  cbn [foldl length]. pose proof (inject_nat_succ (length qs)) as Hs.
  destruct qs as [|q' qs'].
  - cbn [foldl length] in *. change (inject_Z (Z.of_nat 0)) with 0%Q in Hs.
    rewrite Hs. lra.
  - specialize (IH (a + q)%Q ltac:(discriminate) Hall).
    rewrite Hs. lra.
Qed.

(** The mean of a non-empty group is defined and lies between any bounds of
    its values. *)
Lemma mean_bounds {A : Type} (vs : list A) (f : A -> Q) (lo hi : Q) :
  vs <> [] ->
  (forall v, v ∈ vs -> (lo <= f v)%Q /\ (f v <= hi)%Q) ->
  exists m, D3.mean vs f = Some m /\ (lo <= m)%Q /\ (m <= hi)%Q.
Proof.
  intros Hne Hall. unfold D3.mean.
  destruct vs as [|v0 vs0]; [congruence|].
  set (vs := v0 :: vs0) in *. eexists. split; [reflexivity|].
  assert (HF : Forall (fun q => (lo <= q)%Q /\ (q <= hi)%Q) (map f vs)).
  { apply Forall_map, Forall_forall. exact Hall. }
  destruct (foldl_sum_bounds lo hi (map f vs) 0%Q HF) as [Hlo Hhi].
  rewrite length_map in Hlo, Hhi.
  pose proof (inject_nat_pos (length vs0)) as Hpos.
  change (length vs) with (S (length vs0)) in *.
  split.
  - apply Qle_shift_div_l; [exact Hpos|]. lra.
  - apply Qle_shift_div_r; [exact Hpos|]. lra.
Qed.

Lemma mean_below {A : Type} (vs : list A) (f : A -> Q) (lo hi : Q) :
  vs <> [] ->
  (forall v, v ∈ vs -> (lo <= f v)%Q /\ (f v < hi)%Q) ->
  exists m, D3.mean vs f = Some m /\ (lo <= m)%Q /\ (m < hi)%Q.
Proof.
  intros Hne Hall.
  destruct (mean_bounds vs f lo hi Hne) as (m & Hm & Hlo & _).
  { intros v Hv. destruct (Hall v Hv). split; [assumption | lra]. }
  exists m. split; [exact Hm|]. split; [exact Hlo|].
  unfold D3.mean in Hm. destruct vs as [|v0 vs0]; [congruence|].
  set (vs := v0 :: vs0) in *. injection Hm as <-.
  assert (HF : Forall (fun q => (q < hi)%Q) (map f vs)).
  { apply Forall_map, Forall_forall. intros v Hv. now destruct (Hall v Hv). }
  assert (Hne' : map f vs <> []) by discriminate.
  pose proof (foldl_sum_below hi (map f vs) 0%Q Hne' HF) as Hhi.
  rewrite length_map in Hhi.
  pose proof (inject_nat_pos (length vs0)) as Hpos.
  change (length vs) with (S (length vs0)) in *.
  apply Qlt_shift_div_r; [exact Hpos|].
  unfold vs in Hhi. cbn [map foldl] in Hhi. lra.
Qed.

(** The groups behind the centroids. *)
Lemma centroid_group (data : list DataPoint) k m :
  (k, m) ∈ centroids data ->
  exists vs, m = centroid_of vs /\ vs <> [] /\
    vs = List.filter (fun d => same_key (cluster d) k) data.
Proof.
  unfold centroids, D3.rollup. intros H.
  apply list_elem_of_fmap in H as ([k0 vs] & Heq & Hg).
  simpl in Heq. injection Heq as -> ->.
  destruct (group_grouped same_key cluster same_key_spec data) as (_ & Hgr & _).
  destruct (Hgr k0 vs Hg) as [Hvs Hne]. now exists vs.
Qed.

(** X9: the centroid circles stand for the labels: there is one circle per
    label that occurs (a missing label counts as one), and the circle of a
    label is the mean of exactly the points that carry it. *)
Theorem centroids_by_label (data : list DataPoint) :
  NoDup (map fst (centroids data)) /\
  forall k m,
    (k, m) ∈ centroids data <->
    (exists d, d ∈ data /\ cluster d = k) /\
    m = centroid_of (List.filter (fun d => same_key (cluster d) k) data).
Proof.
  destruct (group_grouped same_key cluster same_key_spec data)
    as (Hnd & Hgr & Hall).
  assert (Hkeys : map fst (centroids data)
                  = map fst (D3.group same_key data cluster)).
  { unfold centroids, D3.rollup. rewrite map_map. reflexivity. }
  split; [now rewrite Hkeys|].
  intros k m. split.
  - intros H. destruct (centroid_group data k m H) as (vs & -> & Hne & Hvs).
    split; [|now rewrite Hvs].
    destruct vs as [|d vs']; [congruence|]. exists d.
    assert (Hd : In d (List.filter (fun d => same_key (cluster d) k) data))
      by (rewrite <- Hvs; now left).
    apply filter_In in Hd as [Hin Hk].
    split; [now apply list_elem_of_In | now apply same_key_spec].
  - intros [(d & Hd & Hk) ->].
    specialize (Hall d Hd). rewrite Hk in Hall.
    apply list_elem_of_fmap in Hall as ([k0 vs] & Heq & Hg).
    simpl in Heq. subst k0.
    destruct (Hgr k vs Hg) as [Hvs _]. rewrite <- Hvs.
    unfold centroids, D3.rollup. apply list_elem_of_fmap.
    now exists (k, vs).
Qed.

(** ** The colours of the data points *)

Lemma fills_length (data : list DataPoint) : forall domain,
  length (fills domain data) = length data.
Proof.
  induction data as [|d rest IH]; intros domain; simpl; [reflexivity|].
  destruct (cluster d) as [c|]; [destruct (Z.eqb c (-1))|]; simpl;
    now rewrite IH.
Qed.

Lemma scheme_NoDup : NoDup D3.schemeCategory10.
Proof. apply (bool_decide_unpack _). vm_compute. exact I. Qed.

(** The scale answers with one of its ten colours, none of which is the
    grey of line 84. *)
Lemma scheme_colour (n : nat) :
  exists s, D3.schemeCategory10 !! (n mod 10)%nat = Some s /\ s <> "#ccc"%string.
Proof.
  pose proof (Nat.mod_upper_bound n 10 ltac:(lia)) as Hlt.
  remember (n mod 10)%nat as m eqn:Hm. clear Hm.
  do 10 (destruct m as [|m];
         [eexists; split; [reflexivity | discriminate]|]).
  lia.
Qed.

Lemma index_of_lookup (c : Z) (domain : list Z) (n : nat) :
  D3.index_of c domain = Some n -> domain !! n = Some c.
Proof.
  revert n. induction domain as [|c' rest IH]; intros n; simpl; [discriminate|].
  destruct (Z.eqb c c') eqn:Hc.
  - intros [= <-]. apply Z.eqb_eq in Hc. now subst.
  - destruct (D3.index_of c rest) as [m|]; [|discriminate].
    simpl. intros [= <-]. now apply IH.
Qed.

Lemma index_of_None (c : Z) (domain : list Z) :
  D3.index_of c domain = None <-> c ∉ domain.
Proof.
  induction domain as [|c' rest IH]; simpl.
  - split; [intros _ H; inversion H | reflexivity].
  - destruct (Z.eqb c c') eqn:Hc.
    + apply Z.eqb_eq in Hc. subst. split; [discriminate|].
      intros H. destruct H. left.
    + apply Z.eqb_neq in Hc. rewrite not_elem_of_cons, <- IH.
      destruct (D3.index_of c rest); simpl.
      * split; [discriminate | intros [_ H]; discriminate].
      * tauto.
Qed.

Lemma index_of_app (c : Z) (domain ext : list Z) (n : nat) :
  D3.index_of c domain = Some n -> D3.index_of c (domain ++ ext) = Some n.
Proof.
  revert n. induction domain as [|c' rest IH]; intros n; simpl; [discriminate|].
  destruct (Z.eqb c c'); [auto|].
  destruct (D3.index_of c rest) as [m|]; [|discriminate].
  simpl. intros [= <-]. now rewrite (IH m eq_refl).
Qed.

Lemma index_of_snoc (c : Z) (domain : list Z) :
  c ∉ domain -> D3.index_of c (domain ++ [c]) = Some (length domain).
Proof.
  induction domain as [|c' rest IH]; simpl; intros Hc.
  - now rewrite Z.eqb_refl.
  - apply not_elem_of_cons in Hc as [Hne Hc].
    apply Z.eqb_neq in Hne. rewrite Hne. now rewrite IH.
Qed.

(** One call of the scale: the key gets a position in the new domain, which
    extends the old one without repeating a key, and the colour at that
    position. *)
Lemma scaleOrdinal_step (domain : list Z) (c : Z) :
  NoDup domain ->
  exists n ext,
    snd (D3.scaleOrdinal D3.schemeCategory10 domain c) = domain ++ ext /\
    NoDup (domain ++ ext) /\
    (forall c', c' ∈ ext -> c' = c) /\
    D3.index_of c (domain ++ ext) = Some n /\
    fst (D3.scaleOrdinal D3.schemeCategory10 domain c)
    = D3.schemeCategory10 !! (n mod 10)%nat.
Proof.
  intros Hnd. unfold D3.scaleOrdinal.
  destruct (D3.index_of c domain) as [n|] eqn:Hi.
  - exists n, []. rewrite app_nil_r. simpl.
    repeat split; auto. intros c' H. inversion H.
  - exists (length domain), [c]. simpl.
    apply index_of_None in Hi.
    repeat split; auto.
    + apply NoDup_app. split; [exact Hnd|]. split; [|apply NoDup_singleton].
      intros c' Hc' Hc''. apply list_elem_of_singleton in Hc''. now subst.
    + intros c' Hc'. now apply list_elem_of_singleton in Hc'.
    + now apply index_of_snoc.
Qed.

(** After all the calls of a drawing the scale has a domain in which every
    label that was drawn has its position, and each point of that label got
    the colour of that position. *)
Lemma fills_positions (data : list DataPoint) : forall domain,
  NoDup domain ->
  exists final,
    NoDup final /\
    (exists ext, final = domain ++ ext) /\
    (forall c, c ∈ final ->
       c ∈ domain \/ exists d, d ∈ data /\ cluster d = Some c /\ c <> -1) /\
    forall i d c,
      data !! i = Some d -> cluster d = Some c -> c <> -1 ->
      exists n, D3.index_of c final = Some n /\
        fills domain data !! i = Some (D3.schemeCategory10 !! (n mod 10)%nat).
Proof.
  induction data as [|d rest IH]; intros domain Hnd.
  - exists domain. split; [exact Hnd|]. split; [exists []; now rewrite app_nil_r|].
    split; [auto|]. intros i d c H. discriminate.
  - assert (Hskip : (cluster d = None \/ cluster d = Some (-1)) ->
              fills domain (d :: rest)
              = Some "#ccc"%string :: fills domain rest).
    { intros [H|H]; simpl; now rewrite H. }
    destruct (cluster d) as [c0|] eqn:Hc0; [destruct (Z.eq_dec c0 (-1)) as [->|Hne]|].
    + destruct (IH domain Hnd) as (final & Hf & Hext & Hsrc & Hpos).
      exists final. split; [exact Hf|]. split; [exact Hext|]. split.
      * intros c Hc. destruct (Hsrc c Hc) as [?|(d' & ? & ? & ?)]; [now left|].
        right. exists d'. split; [now right | now split].
      * intros [|i] d' c Hd' Hc Hc'; simpl in Hd'.
        { injection Hd' as <-. congruence. }
        rewrite Hskip by now right. simpl. now apply (Hpos i d').
    + destruct (scaleOrdinal_step domain c0 Hnd)
        as (n0 & ext0 & Hsnd & Hnd1 & Hext0 & Hidx0 & Hcol0).
      destruct (IH (domain ++ ext0) Hnd1) as (final & Hf & [ext Hext] & Hsrc & Hpos).
      assert (Hfills : fills domain (d :: rest)
                = D3.schemeCategory10 !! (n0 mod 10)%nat
                  :: fills (domain ++ ext0) rest).
      { simpl. rewrite Hc0. apply Z.eqb_neq in Hne. rewrite Hne.
        now rewrite Hcol0, Hsnd. }
      exists final. split; [exact Hf|]. split.
      { exists (ext0 ++ ext). now rewrite Hext, app_assoc. }
      split.
      * intros c Hc. destruct (Hsrc c Hc) as [Hin|(d' & ? & ? & ?)].
        -- apply elem_of_app in Hin as [Hin|Hin]; [now left|].
           right. exists d. rewrite (Hext0 c Hin). split; [left | now split].
        -- right. exists d'. split; [now right | now split].
      * intros [|i] d' c Hd' Hc Hc'; simpl in Hd'.
        { injection Hd' as <-. rewrite Hc0 in Hc. injection Hc as <-.
          exists n0. rewrite Hfills. simpl. split; [|reflexivity].
          rewrite Hext. now apply index_of_app. }
        rewrite Hfills. simpl. now apply (Hpos i d').
    + destruct (IH domain Hnd) as (final & Hf & Hext & Hsrc & Hpos).
      exists final. split; [exact Hf|]. split; [exact Hext|]. split.
      * intros c Hc. destruct (Hsrc c Hc) as [?|(d' & ? & ? & ?)]; [now left|].
        right. exists d'. split; [now right | now split].
      * intros [|i] d' c Hd' Hc Hc'; simpl in Hd'.
        { injection Hd' as <-. congruence. }
        rewrite Hskip by now left. simpl. now apply (Hpos i d').
Qed.

(** A point is drawn grey exactly when it has no label or the label
    [-1]. *)
Lemma fills_grey (data : list DataPoint) : forall domain i d,
  data !! i = Some d ->
  exists col, fills domain data !! i = Some col /\
    (col = Some "#ccc"%string <-> cluster d = None \/ cluster d = Some (-1)).
Proof.
  induction data as [|d0 rest IH]; intros domain i d Hd; [discriminate|].
  destruct i as [|i]; simpl in Hd.
  - injection Hd as ->. cbn [fills].
    destruct (cluster d) as [c|]; [destruct (Z.eqb c (-1)) eqn:Hc|].
    + apply Z.eqb_eq in Hc. subst. eexists. split; [reflexivity|].
      split; auto.
    + apply Z.eqb_neq in Hc. eexists. split; [reflexivity|].
      unfold D3.scaleOrdinal.
      change (length D3.schemeCategory10) with 10%nat.
      destruct (D3.index_of c domain) as [n|]; cbn [fst].
      * destruct (scheme_colour n) as (s & -> & Hs).
        split; [intros [= ->]; congruence | intros [H|H]; congruence].
      * destruct (scheme_colour (length domain)) as (s & -> & Hs).
        split; [intros [= ->]; congruence | intros [H|H]; congruence].
    + eexists. split; [reflexivity|]. split; auto.
  - simpl.
    destruct (cluster d0) as [c|]; [destruct (Z.eqb c (-1))|]; simpl;
      now apply IH.
Qed.

(** X11: points with the same label are drawn in the same colour. *)
Theorem same_label_same_colour (data : list DataPoint) i j di dj c :
  data !! i = Some di -> data !! j = Some dj ->
  cluster di = Some c -> cluster dj = Some c -> c <> -1 ->
  fills [] data !! i = fills [] data !! j.
Proof.
  intros Hi Hj Hci Hcj Hc.
  destruct (fills_positions data [] (@NoDup_nil_2 Z)) as (final & _ & _ & _ & Hpos).
  destruct (Hpos i di c Hi Hci Hc) as (n & Hn & ->).
  destruct (Hpos j dj c Hj Hcj Hc) as (m & Hm & ->).
  congruence.
Qed.

(** X12: with at most ten different labels among the points, points with
    different labels are drawn in different colours. *)
Theorem distinct_labels_distinct_colours (data : list DataPoint)
    (labels : list Z) i j di dj ci cj :
  (length labels <= 10)%nat ->
  (forall d c, d ∈ data -> cluster d = Some c -> c <> -1 -> c ∈ labels) ->
  data !! i = Some di -> data !! j = Some dj ->
  cluster di = Some ci -> cluster dj = Some cj ->
  ci <> -1 -> cj <> -1 -> ci <> cj ->
  fills [] data !! i <> fills [] data !! j.
Proof.
  intros Hlen Hlabels Hi Hj Hci Hcj Hi1 Hj1 Hne.
  destruct (fills_positions data [] (@NoDup_nil_2 Z))
    as (final & Hnd & _ & Hsrc & Hpos).
  destruct (Hpos i di ci Hi Hci Hi1) as (n & Hn & ->).
  destruct (Hpos j dj cj Hj Hcj Hj1) as (m & Hm & ->).
  assert (Hfinal : (length final <= 10)%nat).
  { etransitivity; [|exact Hlen]. apply submseteq_length.
    apply NoDup_submseteq; [exact Hnd|].
    intros c Hc. destruct (Hsrc c Hc) as [H|(d & Hd & Hcd & Hc1)].
    - inversion H.
    - now apply (Hlabels d c). }
  apply index_of_lookup in Hn, Hm.
  apply lookup_lt_Some in Hn as Hnlt. apply lookup_lt_Some in Hm as Hmlt.
  rewrite !Nat.mod_small by lia.
  assert (Hnm : n <> m) by (intros ->; congruence).
  destruct (lookup_lt_is_Some_2 D3.schemeCategory10 n) as [s Hs];
    [simpl; lia|].
  rewrite Hs. intros [= Heq]. symmetry in Heq.
  apply Hnm. now apply (NoDup_lookup _ _ _ s scheme_NoDup).
Qed.

(** ** What is drawn after a run *)

Lemma dbscan_label_noise (cls : list (list Z)) (i : nat) :
  dbscan_label cls i = -1 <-> forall c, c ∈ cls -> Z.of_nat i ∉ c.
Proof.
  unfold dbscan_label.
  destruct (JS.find _ cls) as [c|] eqn:Hfind.
  - destruct (findIndex_from_first _ _ 0 _ Hfind) as (n & Hn & Hl & Hp & _).
    unfold JS.findIndex. rewrite Hn. split; [lia|].
    intros Hnone. apply includes_spec in Hp.
    destruct (Hnone c (list_elem_of_lookup_2 _ _ _ Hl) Hp).
  - split; [|reflexivity]. intros _ c Hc Hin.
    rewrite find_None in Hfind. apply includes_spec in Hin.
    now rewrite (Hfind c Hc) in Hin.
Qed.

Lemma fills_unlabelled (data : list DataPoint) : forall domain,
  Forall (fun d => cluster d = None) data ->
  fills domain data = replicate (length data) (Some "#ccc"%string).
Proof.
  induction data as [|d rest IH]; intros domain Hall; [reflexivity|].
  apply Forall_cons in Hall as [Hd Hall]. simpl. rewrite Hd.
  now rewrite IH.
Qed.

Lemma group_unlabelled (l : list DataPoint) : forall vs,
  Forall (fun d => cluster d = None) l ->
  foldl (fun gs v => D3.add_to_group same_key (cluster v) v gs) [(None, vs)] l
  = [(None, vs ++ l)].
Proof.
  induction l as [|d l IH]; intros vs Hall; simpl.
  - now rewrite app_nil_r.
  - apply Forall_cons in Hall as [Hd Hall]. rewrite Hd. simpl.
    rewrite IH by exact Hall. now rewrite <- app_assoc.
Qed.

Lemma centroids_unlabelled (data : list DataPoint) :
  data <> [] -> Forall (fun d => cluster d = None) data ->
  centroids data = [(None, centroid_of data)].
Proof.
  intros Hne Hall. destruct data as [|d rest]; [congruence|].
  apply Forall_cons in Hall as [Hd Hall].
  unfold centroids, D3.rollup, D3.group. simpl. rewrite Hd.
  now rewrite group_unlabelled.
Qed.

Section DrawingFacts.

Context {exn : Type} (message : exn -> string).
Context {entropy : Type}.
Variable KMeans : entropy -> list (Q * Q) -> Z -> exn + ml_kmeans.Result.
Variable DBSCAN_run : list (Q * Q) -> Q -> Z -> exn + list (list Z).

Local Abbreviation run := (runClustering message KMeans DBSCAN_run).
Local Abbreviation effect := (clusteringEffect message KMeans DBSCAN_run).

(** X13: after a DBSCAN run, the points drawn grey are exactly those that are in
    none of the returned clusters, and a point that is in a cluster is
    drawn in one of the ten colours of the scale. *)
Theorem dbscan_noise_grey rnd st cls dr i p col :
  rawData st <> [] ->
  algorithm st = "dbscan" ->
  DBSCAN_run (coordinates (rawData st)) (epsilon st) (minPoints st) = inr cls ->
  draw (effect rnd st) = Some dr ->
  datapoints dr !! i = Some (p, col) ->
  (col = Some "#ccc"%string <-> forall c, c ∈ cls -> Z.of_nat i ∉ c) /\
  ((exists c, c ∈ cls /\ Z.of_nat i ∈ c) ->
   exists s, col = Some s /\ s ∈ D3.schemeCategory10 /\ s <> "#ccc"%string).
Proof.
  intros Hne Ha Hr Hdraw Hi.
  rewrite (effect_unfold message KMeans DBSCAN_run rnd st Hne) in Hdraw.
  rewrite (run_dbscan_ok message KMeans DBSCAN_run rnd st _ _ cls Ha Hr) in Hdraw.
  unfold draw in Hdraw. cbn [clusteredData fst algorithm] in Hdraw.
  destruct (length _ =? 0)%nat; [discriminate|].
  injection Hdraw as <-. cbn [datapoints] in Hi.
  apply lookup_zip_with_Some in Hi as (q & col' & Heq & _ & Hfill).
  injection Heq as <- <-.
  destruct (lookup_lt_is_Some_2 (rawData st) i) as [d Hd].
  { apply lookup_lt_Some in Hfill.
    now rewrite fills_length, length_imap in Hfill. }
  set (labelled := imap (fun i d => with_cluster d (Some (dbscan_label cls i)))
                        (rawData st)) in *.
  assert (Hlab : labelled !! i
                 = Some (with_cluster d (Some (dbscan_label cls i)))).
  { unfold labelled. now rewrite list_lookup_imap, Hd. }
  split.
  - destruct (fills_grey labelled [] i _ Hlab) as (col' & Hcol' & Hgrey).
    rewrite Hfill in Hcol'. injection Hcol' as <-.
    rewrite Hgrey. cbn [cluster with_cluster].
    rewrite <- dbscan_label_noise. split.
    + intros [H|H]; congruence.
    + intros ->. now right.
  - intros (c & Hc & Hin).
    assert (Hnot : dbscan_label cls i <> -1).
    { rewrite dbscan_label_noise. intros Hnone. now apply (Hnone c Hc). }
    destruct (fills_positions labelled [] (@NoDup_nil_2 Z))
      as (final & _ & _ & _ & Hpos).
    destruct (Hpos i _ (dbscan_label cls i) Hlab eq_refl Hnot) as (n & _ & Hcol).
    rewrite Hfill in Hcol. injection Hcol as ->.
    destruct (scheme_colour n) as (s & Hs & Hgrey).
    exists s. split; [exact Hs|]. split; [|exact Hgrey].
    now apply list_elem_of_lookup_2 with (n mod 10)%nat.
Qed.

(** X14: after a K-means run that threw, on points without labels, every point
    is drawn grey and one centroid circle is drawn, at the mean of all the
    points. *)
Theorem failed_kmeans_drawing rnd st err :
  rawData st <> [] ->
  Forall (fun d => cluster d = None) (rawData st) ->
  algorithm st = "kmeans" ->
  KMeans rnd (coordinates (rawData st)) (clusters st) = inl err ->
  draw (effect rnd st)
  = Some {| datapoints :=
              zip (coordinates (rawData st))
                  (replicate (length (rawData st)) (Some "#ccc"%string));
            centroidMarks := [centroid_of (rawData st)] |}.
Proof.
  intros Hne Hall Ha Hr.
  rewrite (effect_unfold message KMeans DBSCAN_run rnd st Hne).
  rewrite (run_kmeans_throws message KMeans DBSCAN_run rnd st _ _ err Ha Hr).
  unfold draw. cbn [clusteredData fst algorithm].
  destruct (rawData st) as [|d rest] eqn:Hraw; [congruence|].
  rewrite <- Hraw in *. rewrite Ha.
  replace (length (rawData st) =? 0)%nat with false
    by (rewrite Hraw; reflexivity).
  rewrite fills_unlabelled by exact Hall.
  rewrite centroids_unlabelled by assumption.
  reflexivity.
Qed.

Variable random : nat -> Q.

Lemma generated_point_range calls (p : Q * Q) :
  (forall n, (0 <= random n)%Q /\ (random n < 1)%Q) ->
  p ∈ coordinates (generateRandomData random calls) ->
  (0 <= fst p)%Q /\ (fst p < 800)%Q /\ (0 <= snd p)%Q /\ (snd p < 600)%Q.
Proof.
  intros Hrange Hp. unfold coordinates, generateRandomData in Hp.
  rewrite map_map in Hp.
  apply list_elem_of_fmap in Hp as (i & -> & _). cbn [x y fst snd].
  destruct (Hrange (calls + 2 * i)%nat) as [Hx0 Hx1].
  destruct (Hrange (calls + 2 * i + 1)%nat) as [Hy0 Hy1].
  repeat split; lra.
Qed.

(** X15: after "Generate New Data" and the clustering effect, whatever the run
    did, the drawing has 100 point circles, and every circle, of a point or
    of a centroid, has its centre inside the 800 by 600 drawing area. *)
Theorem generated_drawing_in_canvas calls rnd st :
  (forall n, (0 <= random n)%Q /\ (random n < 1)%Q) ->
  exists dr,
    draw (effect rnd (handleGenerateData random calls st)) = Some dr /\
    length (datapoints dr) = 100%nat /\
    (forall cx cy col, (cx, cy, col) ∈ datapoints dr ->
       (0 <= cx)%Q /\ (cx < 800)%Q /\ (0 <= cy)%Q /\ (cy < 600)%Q) /\
    (forall m, m ∈ centroidMarks dr ->
       exists qx qy, m = (Some qx, Some qy) /\
         (0 <= qx)%Q /\ (qx < 800)%Q /\ (0 <= qy)%Q /\ (qy < 600)%Q).
Proof.
  intros Hrange.
  set (st0 := handleGenerateData random calls st).
  assert (Hne : rawData st0 <> []) by apply generateRandomData_nonempty.
  rewrite (effect_unfold message KMeans DBSCAN_run rnd st0 Hne).
  set (cd := fst (run rnd st0 (rawData st0) (clusters st0))).
  assert (Hcoord : coordinates cd = coordinates (generateRandomData random calls))
    by apply run_coordinates.
  assert (Hlen : length cd = 100%nat).
  { unfold cd. rewrite run_length. apply generateRandomData_length. }
  assert (Hin : forall d, d ∈ cd ->
            (0 <= x d)%Q /\ (x d < 800)%Q /\ (0 <= y d)%Q /\ (y d < 600)%Q).
  { intros d Hd.
    apply (generated_point_range calls (x d, y d) Hrange).
    rewrite <- Hcoord. unfold coordinates.
    apply list_elem_of_fmap. now exists d. }
  unfold draw. cbn [clusteredData algorithm]. rewrite Hlen. simpl Nat.eqb.
  eexists. split; [reflexivity|]. cbn [datapoints centroidMarks].
  split; [|split].
  - rewrite length_zip_with, fills_length.
    unfold coordinates. rewrite length_map. lia.
  - intros cx cy col Hc. apply elem_of_zip_l in Hc.
    rewrite Hcoord in Hc.
    apply (generated_point_range calls (cx, cy) Hrange Hc).
  - intros m Hm.
    destruct (String.eqb (algorithm st0) "kmeans"); [|inversion Hm].
    apply list_elem_of_fmap in Hm as ([k m'] & -> & Hkm). simpl.
    destruct (centroid_group cd k m' Hkm) as (vs & -> & Hvs & Hfilter).
    assert (Hsub : forall d, d ∈ vs -> d ∈ cd).
    { intros d Hd. rewrite Hfilter in Hd.
      apply list_elem_of_In, filter_In in Hd as [Hd _].
      now apply list_elem_of_In. }
    destruct (mean_below vs x 0 800 Hvs) as (qx & Hqx & Hx).
    { intros d Hd. destruct (Hin d (Hsub d Hd)) as (? & ? & _). now split. }
    destruct (mean_below vs y 0 600 Hvs) as (qy & Hqy & Hy).
    { intros d Hd. destruct (Hin d (Hsub d Hd)) as (_ & _ & ? & ?). now split. }
    exists qx, qy. unfold centroid_of. rewrite Hqx, Hqy.
    split; [reflexivity|]. tauto.
Qed.

End DrawingFacts.

(** ** The further properties at concrete inputs *)

Lemma dbscan_label_of_member_witness :
  dbscan_label [[0; 1]; [2; 3]] 2 = 1.
Proof.
  apply (dbscan_label_of_member [[0; 1]; [2; 3]] 2 1 [2; 3]).
  - reflexivity.
  - apply includes_spec. reflexivity.
  - intros [|c'] m' Hlt Hm'; [|lia].
    injection Hm' as <-. intros Hin. apply includes_spec in Hin. discriminate.
Defined.

Lemma reclustering_witness :
  fst (specRunClustering counting_source O dbscan_state
         (fst (specRunClustering counting_source O stale_state scenario_data 2)) 3)
  = fst (specRunClustering counting_source O dbscan_state scenario_data 3).
Proof.
  apply (reclustering error_name (KMeansClusterer.KMeans counting_source)
           DbscanClusterer.run O stale_state 2 O dbscan_state scenario_data 3).
  right. split; [reflexivity|]. exists [[0; 1]; [2; 3]]. reflexivity.
Defined.

Lemma error_outlives_success_witness :
  errorBanner
    (specClusteringEffect counting_source O
       (handleClusterChange 2 (specClusteringEffect counting_source O stale_state)))
  = Some "Error running clustering algorithm: InvalidParameter"%string.
Proof.
  apply (error_outlives_success error_name
           (KMeansClusterer.KMeans counting_source) DbscanClusterer.run
           O O stale_state InvalidParameter 2
           (ml_kmeans.mkResult [0; 0; 1; 1])).
  - vm_compute. discriminate.
  - reflexivity.
  - reflexivity.
  - vm_compute. discriminate.
  - vm_compute. reflexivity.
Defined.

Lemma generateRandomData_in_canvas_witness :
  length (generateRandomData steady_random 0) = 100%nat.
Proof.
  apply (generateRandomData_in_canvas steady_random 0).
  intros n. unfold steady_random. split; lra.
Defined.

Lemma same_label_same_colour_witness :
  fills [] scenario_clustered !! 2%nat = fills [] scenario_clustered !! 3%nat.
Proof.
  apply (same_label_same_colour scenario_clustered 2 3
           (mkDataPoint 10 10 (Some 1)) (mkDataPoint 10 11 (Some 1)) 1);
    (reflexivity || lia).
Defined.

Lemma scenario_clustered_labels (d : DataPoint) (c : Z) :
  d ∈ scenario_clustered -> cluster d = Some c -> c <> -1 -> c ∈ [0; 1].
Proof.
  intros Hd Hc _. unfold scenario_clustered in Hd.
  repeat (apply elem_of_cons in Hd as [->|Hd]); [| | | |inversion Hd];
    injection Hc as <-; repeat constructor.
Qed.

Lemma distinct_labels_distinct_colours_witness :
  fills [] scenario_clustered !! 0%nat <> fills [] scenario_clustered !! 2%nat.
Proof.
  apply (distinct_labels_distinct_colours scenario_clustered [0; 1] 0 2
           (mkDataPoint 0 0 (Some 0)) (mkDataPoint 10 10 (Some 1)) 0 1);
    try reflexivity; try lia.
  - simpl. lia.
  - apply scenario_clustered_labels.
Defined.

Lemma dbscan_noise_grey_witness :
  (Some "#1f77b4"%string = Some "#ccc"%string <->
   forall c, c ∈ [[0; 1]; [2; 3]] -> Z.of_nat 0 ∉ c) /\
  ((exists c, c ∈ [[0; 1]; [2; 3]] /\ Z.of_nat 0 ∈ c) ->
   exists s, Some "#1f77b4"%string = Some s /\
     s ∈ D3.schemeCategory10 /\ s <> "#ccc"%string).
Proof.
  eapply (dbscan_noise_grey error_name
            (KMeansClusterer.KMeans counting_source) DbscanClusterer.run
            O dbscan_state [[0; 1]; [2; 3]] _ 0%nat (0, 0)%Q).
  - vm_compute. discriminate.
  - reflexivity.
  - reflexivity.
  - vm_compute. reflexivity.
  - reflexivity.
Defined.

Lemma failed_kmeans_drawing_witness :
  draw (specClusteringEffect counting_source O stale_state)
  = Some {| datapoints :=
              zip (coordinates scenario_data)
                  (replicate 4 (Some "#ccc"%string));
            centroidMarks := [centroid_of scenario_data] |}.
Proof.
  apply (failed_kmeans_drawing error_name
           (KMeansClusterer.KMeans counting_source) DbscanClusterer.run
           O stale_state InvalidParameter).
  - vm_compute. discriminate.
  - repeat constructor.
  - reflexivity.
  - reflexivity.
Defined.

Lemma generated_drawing_in_canvas_witness :
  exists dr,
    draw (specClusteringEffect counting_source O
            (handleGenerateData steady_random 0 stale_state)) = Some dr /\
    length (datapoints dr) = 100%nat.
Proof.
  destruct (generated_drawing_in_canvas error_name
              (KMeansClusterer.KMeans counting_source) DbscanClusterer.run
              steady_random 0 O stale_state) as (dr & Hdr & Hlen & _).
  - intros n. unfold steady_random. split; lra.
  - exists dr. split; assumption.
Defined.

(** ** Runs of DBSCAN and what they may answer *)

Section DbscanRuns.
Import DbscanClusterer.

Variables (pts : list (Q * Q)) (eps : Q) (minPts : Z).

Lemma is_core_point (q : nat) :
  is_core pts eps minPts q = true -> exists p, pts !! q = Some p.
Proof. unfold is_core. destruct (pts !! q); [eauto | discriminate]. Qed.

(** An expansion has one result at most. *)
Lemma Expand_deterministic c queue marks m1 :
  Expand pts eps minPts c queue marks m1 ->
  forall m2, Expand pts eps minPts c queue marks m2 -> m1 = m2.
Proof.
  induction 1 as [marks|q p rest marks marks' Hcore Hp _ IH
                 |q rest marks marks' Hcore _ IH];
    intros m2 H2; inversion H2; subst; try congruence.
  - apply IH. replace p with p0 by congruence. assumption.
  - now apply IH.
Qed.

(** A scan has one result at most. *)
Lemma Scan_deterministic todo next marks r1 :
  Scan pts eps minPts todo next marks r1 ->
  forall r2, Scan pts eps minPts todo next marks r2 -> r1 = r2.
Proof.
  induction 1 as [next marks|p rest next marks res Hp _ IH
                 |p rest next marks res Hp Hcore _ IH
                 |p rest next marks marks' res Hp Hcore Hexp _ IH];
    intros r2 H2; inversion H2; subst; try congruence.
  - now apply IH.
  - now apply IH.
  - apply IH.
    match goal with
    | H : Expand _ _ _ _ _ _ ?m |- Scan _ _ _ _ _ ?m' _ =>
        replace m' with m; [assumption|]
    end.
    symmetry. eapply Expand_deterministic; eassumption.
Qed.

(** Two answers to the same input are the same answer. *)
Lemma Outcome_deterministic o1 o2 :
  Outcome pts eps minPts o1 -> Outcome pts eps minPts o2 -> o1 = o2.
Proof.
  intros H1 H2. destruct H1 as [Hbad|m1 n1 He Hm Hs1];
    destruct H2 as [Hbad'|m2 n2 He' Hm' Hs2].
  - reflexivity.
  - destruct Hbad as [Hb|Hb]; [|lia].
    exfalso. apply (Qle_not_lt _ _ Hb He').
  - destruct Hbad' as [Hb|Hb]; [|lia].
    exfalso. apply (Qle_not_lt _ _ Hb He).
  - pose proof (Scan_deterministic _ _ _ _ Hs1 _ Hs2) as Heq.
    injection Heq as -> _. reflexivity.
Qed.

(** With enough rounds [expand] ends in the result of the expansion. *)
Lemma expand_Expand c : forall fuel queue marks,
  (length queue + free marks <= fuel)%nat ->
  Expand pts eps minPts c queue marks (expand pts eps minPts fuel c queue marks).
Proof.
  induction fuel as [|fuel IH]; intros queue marks Hfuel.
  - destruct queue; [|simpl in Hfuel; lia]. constructor.
  - destruct queue as [|q rest]; [constructor|].
    simpl in *.
    destruct (is_core pts eps minPts q) eqn:Hcore.
    + destruct (is_core_point q Hcore) as [p Hp]. rewrite Hp.
      pose proof (DbscanFacts.free_assign_all c _ marks
                    (DbscanFacts.fresh_NoDup pts eps marks p)
                    (DbscanFacts.fresh_unassigned pts eps marks p)).
      eapply Expand_core; [exact Hcore | exact Hp |].
      apply IH. rewrite length_app. lia.
    + apply Expand_border; [exact Hcore|]. apply IH. lia.
Qed.

(** [scan] ends in the result of the scan. *)
Lemma scan_Scan todo : forall next marks,
  length marks = length pts ->
  Scan pts eps minPts todo next marks
       (scan pts eps minPts (length pts) todo next marks).
Proof.
  induction todo as [|p rest IH]; intros next marks Hlen; simpl.
  - constructor.
  - destruct (marks !! p) as [[| |c]|] eqn:Hp;
      try (apply Scan_skip; [congruence | now apply IH]).
    destruct (is_core pts eps minPts p) eqn:Hcore.
    + apply Scan_core
        with (marks' := expand pts eps minPts (length pts) next [p]
                               (<[p := Assigned next]> marks));
        [exact Hp | exact Hcore | |].
      * apply expand_Expand.
        pose proof (DbscanFacts.free_insert marks p Unvisited next Hp eq_refl).
        pose proof (DbscanFacts.free_le_length marks). cbn [length]. lia.
      * apply IH. now rewrite DbscanFacts.expand_length, length_insert.
    + apply Scan_noise; [exact Hp | exact Hcore |].
      apply IH. now rewrite length_insert.
Qed.

(** Every cluster number among the marks is below [n]. *)
Local Abbreviation below n marks :=
  (forall i c, marks !! i = Some (Assigned c) -> (c < n)%nat).

Lemma assign_all_lookup c js : forall (marks : list Mark) i m,
  assign_all c js marks !! i = Some m ->
  m = Assigned c \/ marks !! i = Some m.
Proof.
  unfold assign_all. induction js as [|j js IH]; intros marks i m H; simpl in H.
  - now right.
  - destruct (IH _ _ _ H) as [?|Hi]; [now left|].
    destruct (decide (j = i)) as [->|Hne].
    + destruct (decide (i < length marks)%nat).
      * rewrite list_lookup_insert_eq in Hi by assumption. left. congruence.
      * rewrite list_insert_ge in Hi by lia. now right.
    + rewrite list_lookup_insert_ne in Hi by assumption. now right.
Qed.

Lemma Expand_below c queue marks marks' n :
  Expand pts eps minPts c queue marks marks' ->
  (c < n)%nat -> below n marks -> below n marks'.
Proof.
  induction 1 as [marks|q p rest marks marks' _ _ _ IH
                 |q rest marks marks' _ _ IH]; intros Hc Hb.
  - exact Hb.
  - apply IH; [exact Hc|].
    intros i c' Hi. destruct (assign_all_lookup _ _ _ _ _ Hi) as [[= ->]|Hi'].
    + exact Hc.
    + now apply (Hb i).
  - now apply IH.
Qed.

Lemma insert_lookup_cases (marks : list Mark) (p i : nat) (new m : Mark) :
  <[p := new]> marks !! i = Some m -> m = new \/ marks !! i = Some m.
Proof.
  intros Hi. destruct (decide (p = i)) as [->|Hne].
  - destruct (decide (i < length marks)%nat).
    + rewrite list_lookup_insert_eq in Hi by assumption. left. congruence.
    + rewrite list_insert_ge in Hi by lia. now right.
  - rewrite list_lookup_insert_ne in Hi by assumption. now right.
Qed.

Lemma Scan_below todo next marks res :
  Scan pts eps minPts todo next marks res ->
  below next marks -> below (snd res) (fst res).
Proof.
  induction 1 as [next marks|p rest next marks res Hp _ IH
                 |p rest next marks res Hp Hcore _ IH
                 |p rest next marks marks' res Hp Hcore Hexp _ IH];
    intros Hb.
  - exact Hb.
  - now apply IH.
  - apply IH. intros i c Hi.
    destruct (insert_lookup_cases _ _ _ _ _ Hi) as [?|Hi']; [discriminate|].
    now apply (Hb i).
  - apply IH.
    apply (Expand_below _ _ _ _ (S next) Hexp); [lia|].
    intros i c Hi.
    destruct (insert_lookup_cases _ _ _ _ _ Hi) as [[= ->]|Hi']; [lia|].
    specialize (Hb i c Hi'). lia.
Qed.

End DbscanRuns.

Lemma members_spec (labels : list ClusterAssignment) (c i : nat) :
  Z.of_nat i ∈ DbscanClusterer.members labels c
  <-> labels !! i = Some (InCluster c).
Proof.
  unfold DbscanClusterer.members. rewrite list_elem_of_fmap. split.
  - intros (j & Hj & Hin). apply Nat2Z.inj in Hj. subst j.
    apply list_elem_of_In, filter_In in Hin as [_ Hl].
    destruct (labels !! i) as [[c'|]|]; try discriminate.
    apply Nat.eqb_eq in Hl. now subst.
  - intros Hl. exists i. split; [reflexivity|].
    apply list_elem_of_In, filter_In. split.
    + apply in_seq. apply lookup_lt_Some in Hl. lia.
    + rewrite Hl. apply Nat.eqb_refl.
Qed.

(** Grouping the labels by cluster gives an array that stands for them,
    when every cluster number is below the number of clusters. *)
Lemma members_represents (labels : list ClusterAssignment) (n : nat) :
  (forall i c, labels !! i = Some (InCluster c) -> (c < n)%nat) ->
  DbscanClusterer.represents
    (map (DbscanClusterer.members labels) (seq 0 n)) labels.
Proof.
  intros Hbelow i c. split.
  - intros (m & Hm & Hin).
    rewrite list_lookup_fmap in Hm.
    destruct (seq 0 n !! c) as [c'|] eqn:Hc; [|discriminate].
    apply lookup_seq in Hc as [-> _]. simpl in Hm. injection Hm as <-.
    now apply members_spec.
  - intros Hl. exists (DbscanClusterer.members labels c). split.
    + rewrite list_lookup_fmap, lookup_seq_lt by (now apply (Hbelow i)).
      reflexivity.
    + now apply members_spec.
Qed.

Lemma represents_reverse (cls : list (list Z)) (labels : list ClusterAssignment) :
  DbscanClusterer.represents cls labels ->
  DbscanClusterer.represents (map (@reverse Z) cls) labels.
Proof.
  intros Hrep i c. rewrite <- (Hrep i c). split.
  - intros (m & Hm & Hin). rewrite list_lookup_fmap in Hm.
    destruct (cls !! c) as [m0|]; [|discriminate].
    injection Hm as <-. exists m0. split; [reflexivity|].
    now apply elem_of_reverse.
  - intros (m & Hm & Hin). exists (reverse m). split.
    + now rewrite list_lookup_fmap, Hm.
    + now apply elem_of_reverse.
Qed.

(** From an array that stands for the labels, line 45 reads the labels
    back: the cluster number, or [-1] for noise. *)
Lemma represents_label (cls : list (list Z)) (labels : list ClusterAssignment)
    (i : nat) :
  DbscanClusterer.represents cls labels ->
  dbscan_label cls i = match labels !! i with
                       | Some (InCluster c) => Z.of_nat c
                       | _ => -1
                       end.
Proof.
  intros Hrep.
  assert (Hnone : (forall c, labels !! i <> Some (InCluster c)) ->
                  dbscan_label cls i = -1).
  { intros Hno. apply dbscan_label_noise. intros m Hm Hin.
    apply list_elem_of_lookup in Hm as [c Hc].
    apply (Hno c). apply Hrep. now exists m. }
  destruct (labels !! i) as [[c|]|] eqn:Hl;
    [|apply Hnone; congruence|apply Hnone; congruence].
  clear Hnone.
  destruct (proj2 (Hrep i c) Hl) as (m & Hm & Hin).
  unfold dbscan_label.
  destruct (JS.find _ cls) eqn:Hfind.
  - unfold JS.findIndex.
    rewrite (findIndex_from_at _ cls 0 c m Hm); [lia| |].
    + now apply includes_spec.
    + intros c' m' Hlt Hm'.
      destruct (JS.includes m' (Z.of_nat i)) eqn:Hinc; [|reflexivity].
      apply includes_spec in Hinc.
      assert (Hl' : labels !! i = Some (InCluster c'))
        by (apply Hrep; now exists m').
      rewrite Hl in Hl'. injection Hl' as ->. lia.
  - rewrite find_None in Hfind. apply includes_spec in Hin.
    rewrite (Hfind m) in Hin; [discriminate|].
    now apply list_elem_of_lookup_2 with c.
Qed.

(** The function [run] answers as a run of DBSCAN may. *)
Lemma run_answers (pts : list (Q * Q)) (eps : Q) (minPts : Z) :
  DbscanClusterer.answers pts eps minPts (DbscanClusterer.run pts eps minPts).
Proof.
  unfold DbscanClusterer.run, DbscanClusterer.cluster, DbscanClusterer.numClusters.
  destruct (Qle_bool eps 0) eqn:He.
  { simpl. apply DbscanClusterer.Outcome_invalid. left.
    now apply Qle_bool_iff. }
  destruct (minPts <? 1) eqn:Hm.
  { simpl. apply DbscanClusterer.Outcome_invalid. right.
    now apply Z.ltb_lt. }
  cbn [orb DbscanClusterer.answers].
  assert (Hscan := scan_Scan pts eps minPts (seq 0 (length pts)) 0%nat
                     (replicate (length pts) DbscanClusterer.Unvisited)
                     (length_replicate _ _)).
  fold (DbscanClusterer.run_marks_fuel pts eps minPts (length pts)) in Hscan.
  fold (DbscanClusterer.run_marks pts eps minPts) in Hscan.
  destruct (DbscanClusterer.run_marks pts eps minPts) as [marks n] eqn:Hrun.
  exists (map DbscanClusterer.final_label marks). split.
  - apply (DbscanClusterer.Outcome_labels pts eps minPts marks n).
    + apply Qnot_le_lt. intros Hle. apply Qle_bool_iff in Hle. congruence.
    + apply Z.ltb_ge in Hm. lia.
    + exact Hscan.
  - cbn [fst snd]. apply members_represents.
    intros i c Hl. rewrite list_lookup_fmap in Hl.
    destruct (marks !! i) as [[| |c']|] eqn:Hi; try discriminate.
    injection Hl as <-.
    apply (Scan_below pts eps minPts _ _ _ _ Hscan) with i; [|exact Hi].
    intros j c0 Hj. apply lookup_replicate in Hj as [? _]. discriminate.
Qed.

Lemma run_reversed_answers (pts : list (Q * Q)) (eps : Q) (minPts : Z) :
  DbscanClusterer.answers pts eps minPts
    (DbscanClusterer.run_reversed pts eps minPts).
Proof.
  unfold DbscanClusterer.run_reversed.
  pose proof (run_answers pts eps minPts) as H.
  destruct (DbscanClusterer.run pts eps minPts) as [e|cls]; [exact H|].
  destruct H as (labels & Hout & Hrep).
  exists labels. split; [exact Hout | now apply represents_reverse].
Qed.

(** C6: two runs of the component on the same points with the same
    [epsilon] and [minPoints], each calling a DBSCAN that answers as section
    4.2 allows, return the same array, whatever else differs between them:
    the DBSCAN called and the order of the members in its clusters, the
    K-means cluster count, the random state, the error and the data
    displayed so far. *)
Theorem dbscan_deterministic {entropy1 entropy2 : Type}
    (KMeans1 : entropy1 -> list (Q * Q) -> Z -> ClusteringError + ml_kmeans.Result)
    (KMeans2 : entropy2 -> list (Q * Q) -> Z -> ClusteringError + ml_kmeans.Result)
    (DBSCAN_run1 DBSCAN_run2 : list (Q * Q) -> Q -> Z
                               -> ClusteringError + list (list Z))
    rnd1 rnd2 st1 st2 data k1 k2 :
  algorithm st1 = "dbscan" -> algorithm st2 = "dbscan" ->
  epsilon st1 = epsilon st2 -> minPoints st1 = minPoints st2 ->
  DbscanClusterer.answers (coordinates data) (epsilon st1) (minPoints st1)
    (DBSCAN_run1 (coordinates data) (epsilon st1) (minPoints st1)) ->
  DbscanClusterer.answers (coordinates data) (epsilon st2) (minPoints st2)
    (DBSCAN_run2 (coordinates data) (epsilon st2) (minPoints st2)) ->
  fst (runClustering error_name KMeans1 DBSCAN_run1 rnd1 st1 data k1)
  = fst (runClustering error_name KMeans2 DBSCAN_run2 rnd2 st2 data k2).
Proof.
  intros Ha1 Ha2 He Hm Hans1 Hans2. unfold runClustering.
  rewrite Ha1, Ha2. simpl. rewrite <- He, <- Hm in *.
  destruct (DBSCAN_run1 _ _ _) as [e1|cls1], (DBSCAN_run2 _ _ _) as [e2|cls2];
    simpl in *.
  - reflexivity.
  - destruct Hans2 as (labels & Hout & _).
    pose proof (Outcome_deterministic _ _ _ _ _ Hans1 Hout). discriminate.
  - destruct Hans1 as (labels & Hout & _).
    pose proof (Outcome_deterministic _ _ _ _ _ Hans2 Hout). discriminate.
  - destruct Hans1 as (labels1 & Hout1 & Hrep1).
    destruct Hans2 as (labels2 & Hout2 & Hrep2).
    pose proof (Outcome_deterministic _ _ _ _ _ Hout1 Hout2) as Heq.
    injection Heq as ->.
    apply imap_ext. intros i d _. do 2 f_equal.
    now rewrite (represents_label cls1 labels2 i Hrep1),
                (represents_label cls2 labels2 i Hrep2).
Qed.

Lemma dbscan_deterministic_witness :
  fst (runClustering error_name (KMeansClusterer.KMeans counting_source)
         DbscanClusterer.run O dbscan_state scenario_data 3)
  = fst (runClustering error_name
           (KMeansClusterer.KMeans (fun (_ : unit) j => j))
           DbscanClusterer.run_reversed tt
           (handleClusterChange 7 dbscan_state) scenario_data 7).
Proof.
  apply (dbscan_deterministic
           (KMeansClusterer.KMeans counting_source)
           (KMeansClusterer.KMeans (fun (_ : unit) j => j))
           DbscanClusterer.run DbscanClusterer.run_reversed
           O tt dbscan_state (handleClusterChange 7 dbscan_state)
           scenario_data 3 7);
    try reflexivity.
  - apply run_answers.
  - apply run_reversed_answers.
Defined.

Lemma generate_then_cluster_witness :
  errorBanner
    (specClusteringEffect counting_source O
       (handleGenerateData steady_random 0 (handleClusterChange 0 stale_state)))
  = Some "Error running clustering algorithm: InvalidParameter"%string.
Proof.
  destruct (generate_then_cluster steady_random error_name
              (KMeansClusterer.KMeans counting_source) DbscanClusterer.run
              0%nat O (handleClusterChange 0 stale_state))
    as (_ & _ & Hthrow & _).
  apply (Hthrow InvalidParameter).
  left. split; [reflexivity|]. vm_compute. reflexivity.
Defined.
